(** * Plugin loader: targeting engine, experiment manager and orchestrator

    A shallow embedding of [src/targeting.js], [src/experiments.js],
    [src/timer.js] and [src/index.js], followed by the properties of the
    specification that are stated about them.

    Conventions of the embedding.
    - JavaScript values that reach the targeting engine are the primitives
      of [jsval]; numbers are the integers (their decimal rendering is the
      one of [String(n)] for every integer below 10^21 in magnitude).
    - [toLowerCase] folds the letters A-Z; other characters are unchanged.
    - A user supplied function is represented by what a call to it does:
      a predicate by its [call_result], an experiment's [apply] by the
      descriptor it leaves behind and whether it returned or threw, a
      lifecycle hook by an entry in the effect log (hooks are opaque and
      return normally).
    - Objects that the code shares by reference (plugin descriptors) live
      in a store and are named by their location. *)

From stdpp Require Import base option list strings pretty gmap.
From Stdlib Require Import ZArith Lia.

Open Scope Z_scope.
Open Scope string_scope.
Open Scope list_scope.

(** ** JavaScript values *)

Module Js.

Inductive jsval : Type :=
| VUndefined
| VNull
| VBool (b : bool)
| VNum (n : Z)
| VStr (s : string).

#[global] Instance jsval_eq_dec : EqDecision jsval.
Proof. solve_decision. Defined.

(** What a call to a user supplied zero-argument function does. *)
Inductive call_result : Type :=
| Returns (v : jsval)
| Throws.

(** [String(v)] *)
Definition js_String (v : jsval) : string :=
  match v with
  | VUndefined => "undefined"
  | VNull => "null"
  | VBool true => "true"
  | VBool false => "false"
  | VNum n => pretty n
  | VStr s => s
  end.

Definition lower_ascii (c : Ascii.ascii) : Ascii.ascii :=
  let n := Ascii.N_of_ascii c in
  if ((65 <=? n) && (n <=? 90))%N then Ascii.ascii_of_N (n + 32) else c.

(** [s.toLowerCase()] *)
Fixpoint toLowerCase (s : string) : string :=
  match s with
  | EmptyString => EmptyString
  | String c s' => String (lower_ascii c) (toLowerCase s')
  end.

(** [s.startsWith(p)] *)
Definition startsWith (s p : string) : bool := String.prefix p s.

(** [s.includes(p)] *)
Fixpoint str_includes (s p : string) : bool :=
  String.prefix p s ||
  match s with
  | EmptyString => false
  | String _ s' => str_includes s' p
  end.

(** [arr.includes(x)] on an array of primitives *)
Definition arr_includes {A} `{EqDecision A} (l : list A) (x : A) : bool :=
  existsb (fun y => bool_decide (y = x)) l.

(** [arr.indexOf(x)]; [None] stands for -1 *)
Fixpoint arr_indexOf {A} `{EqDecision A} (l : list A) (x : A) : option nat :=
  match l with
  | [] => None
  | y :: l' => if decide (y = x) then Some O else S <$> arr_indexOf l' x
  end.

(** Truthiness of an optional string field ([undefined] and [""] are falsy). *)
Definition truthy_str (o : option string) : bool :=
  match o with
  | Some s => negb (String.eqb s "")
  | None => false
  end.

End Js.
Import Js.

(** ** targeting.js *)

Module Targeting.

(** [matchesRule(value, rules, matchType)]; [rules = None] is an absent
    rule list. *)
Definition matchesRule (value : jsval) (rules : option (list jsval))
    (matchType : string) : bool :=
  match rules with
  | None => true
  | Some [] => true
  | Some rules =>
      if bool_decide (arr_indexOf rules (VStr "all") = Some O)
         || arr_includes rules (VStr "all")
      then true
      else
        let normalizedValue := toLowerCase (js_String value) in
        if String.eqb matchType "startsWith" then
          existsb (fun rule => startsWith normalizedValue (toLowerCase (js_String rule))) rules
        else if String.eqb matchType "includes" then
          existsb (fun rule => str_includes normalizedValue (toLowerCase (js_String rule))) rules
        else
          existsb (fun rule => String.eqb normalizedValue (toLowerCase (js_String rule))) rules
  end.

(** [isExcluded(value, rules, matchType)] *)
Definition isExcluded (value : jsval) (rules : option (list jsval))
    (matchType : string) : bool :=
  match rules with
  | None => false
  | Some [] => false
  | Some rules =>
      let normalizedValue := toLowerCase (js_String value) in
      if String.eqb matchType "startsWith" then
        existsb (fun rule => startsWith normalizedValue (toLowerCase (js_String rule))) rules
      else if String.eqb matchType "includes" then
        existsb (fun rule => str_includes normalizedValue (toLowerCase (js_String rule))) rules
      else
        existsb (fun rule => String.eqb normalizedValue (toLowerCase (js_String rule))) rules
  end.

(** An [include] or [exclude] object: the [special] predicate ([None] when
    the object holds no function under that key) and the rule lists by
    dimension name. *)
Record rules_obj : Type := RulesObj {
  special : option (unit -> call_result);
  dims : gmap string (list jsval)
}.

(** [{}] *)
Definition empty_rules : rules_obj := RulesObj None ∅.

(** [obj[dimension]] read as a rule list.  The key [special] holds the
    predicate, a zero-argument function whose [length] is 0, so that the
    guards [obj[dimension].length > 0] skip it. *)
Definition rule_list (o : rules_obj) (dimension : string) : option (list jsval) :=
  if String.eqb dimension "special" then None else dims o !! dimension.

(** [obj[dimension] && obj[dimension].length > 0] *)
Definition has_rules (o : rules_obj) (dimension : string) : bool :=
  match rule_list o dimension with
  | Some (_ :: _) => true
  | _ => false
  end.

(** An entry of the dimension configuration. *)
Record dim_config : Type := DimConfig { matchType : option string }.

Record verdict : Type := Verdict { matched : bool; reason : string }.

#[global] Instance verdict_eq_dec : EqDecision verdict.
Proof. solve_decision. Defined.

(** [typeof o.special === 'function'] and [o.special() === true], with the
    surrounding [try]/[catch]. *)
Definition special_says_true (o : rules_obj) : bool :=
  match special o with
  | Some f =>
      match f tt with
      | Returns (VBool true) => true
      | Returns _ => false
      | Throws => false
      end
  | None => false
  end.

(** [config.matchType || 'exact'] for [config = dimensionConfig[dimension] || {}] *)
Definition match_type_of (dimensionConfig : gmap string dim_config)
    (dimension : string) : string :=
  match dimensionConfig !! dimension with
  | Some cfg => if truthy_str (matchType cfg) then default "exact" (matchType cfg) else "exact"
  | None => "exact"
  end.

(** The loop over [Object.keys(context)]; [None] when no dimension blocks. *)
Fixpoint eval_dimensions (include exclude : rules_obj)
    (context : list (string * jsval))
    (dimensionConfig : gmap string dim_config) : option verdict :=
  match context with
  | [] => None
  | (dimension, currentValue) :: rest =>
      let mt := match_type_of dimensionConfig dimension in
      if has_rules exclude dimension
         && isExcluded currentValue (rule_list exclude dimension) mt
      then Some (Verdict false
                   ("Excluded by " +:+ dimension +:+ ": " +:+ js_String currentValue))
      else if has_rules include dimension
              && negb (matchesRule currentValue (rule_list include dimension) mt)
      then Some (Verdict false
                   ("Not included by " +:+ dimension +:+ ": " +:+ js_String currentValue))
      else eval_dimensions include exclude rest dimensionConfig
  end.

(** [evaluateTargeting(include, exclude, context, dimensionConfig)] *)
Definition evaluateTargeting (include exclude : rules_obj)
    (context : list (string * jsval))
    (dimensionConfig : gmap string dim_config) : verdict :=
  if special_says_true exclude then
    Verdict false "Excluded by special function"
  else if special_says_true include then
    Verdict true "Included by special function"
  else
    match eval_dimensions include exclude context dimensionConfig with
    | Some v => v
    | None => Verdict true "All targeting rules passed"
    end.

(** [matchesDomain(domains, currentDomain)]; [host] is the value of
    [currentDomain || window.location.host]. *)
Definition matchesDomain (domains : option (list string)) (host : string) : bool :=
  match domains with
  | None => true
  | Some [] => true
  | Some domains =>
      if arr_includes domains "all" then true else arr_includes domains host
  end.

(** One side of [normalizeTargetingConfig]: a default [special] that
    returns [false], overridden by the object's own. *)
Definition normalize_rules (o : rules_obj) : rules_obj :=
  RulesObj (Some (default (fun _ => Returns (VBool false)) (special o))) (dims o).

(** [normalizeTargetingConfig({include, exclude})] *)
Definition normalizeTargetingConfig (include exclude : rules_obj)
    : rules_obj * rules_obj :=
  (normalize_rules include, normalize_rules exclude).

End Targeting.

(** ** timer.js *)

Module Timer.

(** The performance tracker of a plugin.  Timestamps are the integers that
    [timer()] returns ([Math.round] of the clock). *)
Record perf : Type := Perf {
  p_status : string;
  p_init : Z;
  p_requested : Z;
  p_received : Z;
  p_preload : Z;
  p_error : Z;
  p_timeout : Z;
  p_latency : Z
}.

#[global] Instance perf_eq_dec : EqDecision perf.
Proof. solve_decision. Defined.

(** [createPerformanceTracker()], given what its call of [timer()] returns. *)
Definition createPerformanceTracker (now : Z) : perf :=
  Perf "init" now 0 0 0 (-1) (-1) 0.

(** [calculateLatency(perf)], given what its call of [timer()] returns. *)
Definition calculateLatency (now : Z) (p : perf) : Z := now - p_init p.

Definition set_p_status (v : string) (p : perf) : perf :=
  Perf v (p_init p) (p_requested p) (p_received p) (p_preload p)
       (p_error p) (p_timeout p) (p_latency p).
Definition set_p_requested (v : Z) (p : perf) : perf :=
  Perf (p_status p) (p_init p) v (p_received p) (p_preload p)
       (p_error p) (p_timeout p) (p_latency p).
Definition set_p_received (v : Z) (p : perf) : perf :=
  Perf (p_status p) (p_init p) (p_requested p) v (p_preload p)
       (p_error p) (p_timeout p) (p_latency p).
Definition set_p_preload (v : Z) (p : perf) : perf :=
  Perf (p_status p) (p_init p) (p_requested p) (p_received p) v
       (p_error p) (p_timeout p) (p_latency p).
Definition set_p_error (v : Z) (p : perf) : perf :=
  Perf (p_status p) (p_init p) (p_requested p) (p_received p) (p_preload p)
       v (p_timeout p) (p_latency p).
Definition set_p_timeout (v : Z) (p : perf) : perf :=
  Perf (p_status p) (p_init p) (p_requested p) (p_received p) (p_preload p)
       (p_error p) v (p_latency p).
Definition set_p_latency (v : Z) (p : perf) : perf :=
  Perf (p_status p) (p_init p) (p_requested p) (p_received p) (p_preload p)
       (p_error p) (p_timeout p) v.

End Timer.
Import Timer.

(** ** Objects used as ordered maps

    [Object.entries] lists the keys that are array indices first, in
    ascending numeric order, then the other string keys in insertion
    order.  An object is kept as its list of entries in that order. *)

Module Obj.

Definition digit_value (c : Ascii.ascii) : option N :=
  let n := Ascii.N_of_ascii c in
  if ((48 <=? n) && (n <=? 57))%N then Some (n - 48)%N else None.

Fixpoint digits_value (acc : N) (s : string) : option N :=
  match s with
  | EmptyString => Some acc
  | String c s' =>
      match digit_value c with
      | Some d => digits_value (acc * 10 + d)%N s'
      | None => None
      end
  end.

(** A key is an array index when it is the canonical decimal form of an
    integer between 0 and 2^32 - 2. *)
Definition array_index (k : string) : option N :=
  match k with
  | EmptyString => None
  | String c rest =>
      if (Ascii.N_of_ascii c =? 48)%N && negb (String.eqb rest "") then None
      else match digits_value 0 k with
           | Some n => if (n <=? 4294967294)%N then Some n else None
           | None => None
           end
  end.

Section WithValue.
Context {V : Type}.

(** [obj[k]] *)
Fixpoint get (o : list (string * V)) (k : string) : option V :=
  match o with
  | [] => None
  | (k', v) :: o' => if String.eqb k' k then Some v else get o' k
  end.

Fixpoint replace (o : list (string * V)) (k : string) (v : V) : list (string * V) :=
  match o with
  | [] => []
  | (k', v') :: o' =>
      if String.eqb k' k then (k', v) :: o' else (k', v') :: replace o' k v
  end.

(** The place of a new array-index key [n]. *)
Fixpoint insert_index (o : list (string * V)) (n : N) (k : string) (v : V)
    : list (string * V) :=
  match o with
  | [] => [(k, v)]
  | (k', v') :: o' =>
      match array_index k' with
      | Some n' =>
          if (n' <? n)%N then (k', v') :: insert_index o' n k v
          else (k, v) :: (k', v') :: o'
      | None => (k, v) :: (k', v') :: o'
      end
  end.

(** [obj[k] = v] *)
Definition set (o : list (string * V)) (k : string) (v : V) : list (string * V) :=
  match get o k with
  | Some _ => replace o k v
  | None =>
      match array_index k with
      | Some n => insert_index o n k v
      | None => o ++ [(k, v)]
      end
  end.

(** [delete obj[k]] *)
Fixpoint delete (o : list (string * V)) (k : string) : list (string * V) :=
  match o with
  | [] => []
  | (k', v) :: o' => if String.eqb k' k then o' else (k', v) :: delete o' k
  end.

End WithValue.
End Obj.

(** ** experiments.js *)

Module Experiments.
Import Targeting.

Section WithConfig.
(** The plugin configuration that [apply] hands to the experiments. *)
Context {D : Type}.

(** What a call [exp.apply(pluginConfig)] does: the configuration it
    leaves behind, and whether it returned or threw. *)
Inductive apply_outcome : Type :=
| Applied (cfg : D)
| ApplyThrew (cfg : D).

(** The argument of [register]. *)
Record raw_experiment : Type := RawExperiment {
  r_id : option string;
  r_active : option bool;
  r_testRange : option (Z * Z);
  r_plugin : option string;
  r_include : option rules_obj;
  r_exclude : option rules_obj;
  r_apply : option (D -> apply_outcome)
}.

(** An entry of the registry. *)
Record experiment : Type := Experiment {
  exp_id : string;
  exp_active : bool;
  testRange : Z * Z;
  exp_plugin : option string;
  exp_include : option rules_obj;
  exp_exclude : option rules_obj;
  exp_apply : D -> apply_outcome
}.

Record manager : Type := Manager {
  mgr_active : bool;
  testgroup : Z;
  getContext : unit -> list (string * jsval);
  mgr_dimensionConfig : gmap string dim_config;
  registry : list (string * experiment);
  applied : list string;
  eligible : list string
}.

(** The argument of the constructor. *)
Record manager_config : Type := ManagerConfig {
  mc_active : option bool;
  mc_testgroup : option Z;
  mc_getContext : option (unit -> list (string * jsval));
  mc_dimensionConfig : option (gmap string dim_config)
}.

(** [new ExperimentManager(config)]; [rand] is the value of
    [Math.floor(Math.random() * 100)]. *)
Definition new_manager (config : manager_config) (rand : Z) : manager :=
  Manager (default true (mc_active config))
          (default rand (mc_testgroup config))
          (default (fun _ => []) (mc_getContext config))
          (default ∅ (mc_dimensionConfig config))
          [] [] [].

Definition set_registry (r : list (string * experiment)) (m : manager) : manager :=
  Manager (mgr_active m) (testgroup m) (getContext m) (mgr_dimensionConfig m)
          r (applied m) (eligible m).
Definition set_applied (l : list string) (m : manager) : manager :=
  Manager (mgr_active m) (testgroup m) (getContext m) (mgr_dimensionConfig m)
          (registry m) l (eligible m).
Definition set_eligible (l : list string) (m : manager) : manager :=
  Manager (mgr_active m) (testgroup m) (getContext m) (mgr_dimensionConfig m)
          (registry m) (applied m) l.

(** [register(experiment)]: the manager afterwards and the returned boolean. *)
Definition register (e : raw_experiment) (m : manager) : manager * bool :=
  if truthy_str (r_id e) then
    let id := default "" (r_id e) in
    let entry :=
      Experiment id
        (default true (r_active e))
        (default (0, 99) (r_testRange e))
        (if truthy_str (r_plugin e) then r_plugin e else None)
        (Some (default empty_rules (r_include e)))
        (Some (default empty_rules (r_exclude e)))
        (default (fun cfg => Applied cfg) (r_apply e)) in
    (set_registry (Obj.set (registry m) id entry) m, true)
  else (m, false).

(** [unregister(id)] *)
Definition unregister (id : string) (m : manager) : manager :=
  set_registry (Obj.delete (registry m) id) m.

(** [isInExperiment(id)] *)
Definition isInExperiment (m : manager) (id : string) : bool :=
  if negb (mgr_active m) then false
  else
    match Obj.get (registry m) id with
    | Some exp =>
        if negb (exp_active exp) then false
        else
          let '(min, max) := testRange exp in
          ((testgroup m >=? min)%Z && (testgroup m <=? max)%Z)
    | None => false
    end.

(** [targetingMatches(exp)] *)
Definition targetingMatches (m : manager) (exp : experiment) : bool :=
  match exp_include exp, exp_exclude exp with
  | None, None => true
  | inc, exc =>
      let context := getContext m tt in
      let '(include, exclude) :=
        normalizeTargetingConfig (default empty_rules inc) (default empty_rules exc) in
      matched (evaluateTargeting include exclude context (mgr_dimensionConfig m))
  end.

(** [pluginName ? exp.plugin === pluginName : !exp.plugin] *)
Definition isMatch (pluginName : option string) (exp : experiment) : bool :=
  if truthy_str pluginName then bool_decide (exp_plugin exp = pluginName)
  else negb (truthy_str (exp_plugin exp)).

(** The body of the loop of [apply] for one entry of the registry. *)
Definition apply_entry (pluginName : option string)
    (st : manager * D) (entry : string * experiment) : manager * D :=
  let '(m, pluginConfig) := st in
  let '(id, exp) := entry in
  if exp_active exp && isMatch pluginName exp then
    if targetingMatches m exp then
      if isInExperiment m id then
        match exp_apply exp pluginConfig with
        | Applied cfg' => (set_applied (applied m ++ [id]) m, cfg')
        | ApplyThrew cfg' => (m, cfg')
        end
      else (set_eligible (eligible m ++ [id]) m, pluginConfig)
    else st
  else st.

(** [apply(pluginName, pluginConfig)] *)
Definition apply (pluginName : option string) (pluginConfig : D) (m : manager)
    : manager * D :=
  if negb (mgr_active m) then (m, pluginConfig)
  else fold_left (apply_entry pluginName) (registry m) (m, pluginConfig).

(** [getStatus()] *)
Definition getStatus (m : manager) : Z * list string * list string :=
  (testgroup m, applied m, eligible m).

(** [getTargetingIds()] *)
Definition getTargetingIds (m : manager) : list string :=
  map (fun id => id +:+ "_a") (applied m) ++ map (fun id => id +:+ "_e") (eligible m).

(** [reset()] *)
Definition reset (m : manager) : manager :=
  set_eligible [] (set_applied [] m).

(** [clear()] *)
Definition clear (m : manager) : manager :=
  reset (set_registry [] m).

End WithConfig.
Arguments apply_outcome : clear implicits.
Arguments raw_experiment : clear implicits.
Arguments experiment : clear implicits.
Arguments manager : clear implicits.
Arguments apply_entry : simpl never.
Arguments isInExperiment : simpl never.
Arguments targetingMatches : simpl never.

End Experiments.

(** ** index.js: the plugin loader *)

Module Loader.
Import Targeting Experiments.

(** A normalized plugin descriptor.  [elem_id] is the field [id] and
    [type_] the field [type].  The five hook functions are opaque: a call
    to one of them is an entry of the effect log.  [tag] and [timeoutProc]
    hold the handle of the script element and of the armed alarm. *)
Record plugin : Type := Plugin {
  name : string;
  elem_id : string;
  url : option string;
  type_ : string;
  active : bool;
  async : bool;
  location : string;
  timeout : Z;
  domains : list string;
  consentState : list string;
  include : rules_obj;
  exclude : rules_obj;
  attributes : list (string * string);
  performance : perf;
  eventTitle : string;
  tag : option nat;
  timeoutProc : option nat;
  status : string
}.

(** The argument of [load] and [register]. *)
Record raw_config : Type := RawConfig {
  c_name : string;
  c_id : option string;
  c_url : option string;
  c_type : option string;
  c_active : option bool;
  c_async : option bool;
  c_location : option string;
  c_timeout : option Z;
  c_domains : option (list string);
  c_consentState : option (list string);
  c_consent : option (list string);
  c_include : option rules_obj;
  c_exclude : option rules_obj;
  c_attributes : option (list (string * string));
  c_status : option string
}.

Definition set_url (v : option string) (p : plugin) : plugin :=
  Plugin (name p) (elem_id p) v (type_ p) (active p) (async p)
    (location p) (timeout p) (domains p) (consentState p) (include p)
    (exclude p) (attributes p) (performance p) (eventTitle p) (tag p)
    (timeoutProc p) (status p).
Definition set_status (v : string) (p : plugin) : plugin :=
  Plugin (name p) (elem_id p) (url p) (type_ p) (active p) (async p)
    (location p) (timeout p) (domains p) (consentState p) (include p)
    (exclude p) (attributes p) (performance p) (eventTitle p) (tag p)
    (timeoutProc p) v.
Definition set_performance (v : perf) (p : plugin) : plugin :=
  Plugin (name p) (elem_id p) (url p) (type_ p) (active p) (async p)
    (location p) (timeout p) (domains p) (consentState p) (include p)
    (exclude p) (attributes p) v (eventTitle p) (tag p)
    (timeoutProc p) (status p).
Definition set_active (v : bool) (p : plugin) : plugin :=
  Plugin (name p) (elem_id p) (url p) (type_ p) v (async p)
    (location p) (timeout p) (domains p) (consentState p) (include p)
    (exclude p) (attributes p) (performance p) (eventTitle p) (tag p)
    (timeoutProc p) (status p).
Definition set_tag (v : option nat) (p : plugin) : plugin :=
  Plugin (name p) (elem_id p) (url p) (type_ p) (active p) (async p)
    (location p) (timeout p) (domains p) (consentState p) (include p)
    (exclude p) (attributes p) (performance p) (eventTitle p) v
    (timeoutProc p) (status p).
Definition set_timeoutProc (v : option nat) (p : plugin) : plugin :=
  Plugin (name p) (elem_id p) (url p) (type_ p) (active p) (async p)
    (location p) (timeout p) (domains p) (consentState p) (include p)
    (exclude p) (attributes p) (performance p) (eventTitle p) (tag p)
    v (status p).
Definition set_include (v : rules_obj) (p : plugin) : plugin :=
  Plugin (name p) (elem_id p) (url p) (type_ p) (active p) (async p)
    (location p) (timeout p) (domains p) (consentState p) v
    (exclude p) (attributes p) (performance p) (eventTitle p) (tag p)
    (timeoutProc p) (status p).
Definition set_exclude (v : rules_obj) (p : plugin) : plugin :=
  Plugin (name p) (elem_id p) (url p) (type_ p) (active p) (async p)
    (location p) (timeout p) (domains p) (consentState p) (include p)
    v (attributes p) (performance p) (eventTitle p) (tag p)
    (timeoutProc p) (status p).
Definition set_domains (v : list string) (p : plugin) : plugin :=
  Plugin (name p) (elem_id p) (url p) (type_ p) (active p) (async p)
    (location p) (timeout p) v (consentState p) (include p)
    (exclude p) (attributes p) (performance p) (eventTitle p) (tag p)
    (timeoutProc p) (status p).
Definition set_consentState (v : list string) (p : plugin) : plugin :=
  Plugin (name p) (elem_id p) (url p) (type_ p) (active p) (async p)
    (location p) (timeout p) (domains p) v (include p)
    (exclude p) (attributes p) (performance p) (eventTitle p) (tag p)
    (timeoutProc p) (status p).

(** The value a load resolves with.  [res_performance] is the state of
    [plugin.performance] at the time of the resolution. *)
Record result : Type := Result {
  res_status : string;
  res_name : string;
  res_reason : option string;
  res_error : option jsval;
  res_performance : perf
}.

Inductive hook_call : Type :=
| PreloadFn
| OnloadFn
| OnerrorFn (err : jsval)
| TimeoutFn
| IgnoreFn (reason : string).

(** What the loader does to its surroundings, in the order it does it.
    Descriptors are named by their location in the store, promises by
    their number, alarms and script elements by their handle. *)
Inductive effect : Type :=
| Publish (topic : string) (name : string) (event : string) (reason : option string)
| CallHook (loc : nat) (h : hook_call)
| Resolve (promise : nat) (r : result)
| SetTimeout (handle : nat) (loc : nat) (promise : nat) (ms : Z)
| ClearTimeout (handle : option nat)
| AppendScript (handle : nat) (loc : nat) (promise : nat) (src : string) (target : string).

(** The page at the time of an operation: the clock ([clock n] is what the
    [n]-th call of [timer()] returns), the host, the two override
    parameters of the query string, what [consentCheck] answers and what
    each entry of [dimensions] does when it is read. *)
Record env : Type := Env {
  clock : nat -> Z;
  host : string;
  pluginEnable : option string;
  pluginDisable : option string;
  consentCheck : list string -> bool;
  dimensions : list (string * call_result)
}.

(** The loader.  [store] holds the descriptors, that [plugins], the
    consent queue and the pending callbacks refer to by location; [ticks]
    counts the calls of [timer()], [promises] the promises created and
    [handles] the alarms and script elements created. *)
Record loader : Type := MkLoader {
  eventPrefix : string;
  dimensionConfig : gmap string dim_config;
  experiments : option (manager plugin);
  logs : list (Z * string);
  plugins : gmap string nat;
  metrics : gmap string perf;
  consentQueue : list (nat * nat);
  store : list plugin;
  ticks : nat;
  promises : nat;
  handles : nat;
  effects : list effect
}.

Definition set_experiments (v : option (manager plugin)) (st : loader) : loader :=
  MkLoader (eventPrefix st) (dimensionConfig st) v (logs st) (plugins st)
    (metrics st) (consentQueue st) (store st) (ticks st) (promises st)
    (handles st) (effects st).
Definition set_logs (v : list (Z * string)) (st : loader) : loader :=
  MkLoader (eventPrefix st) (dimensionConfig st) (experiments st) v (plugins st)
    (metrics st) (consentQueue st) (store st) (ticks st) (promises st)
    (handles st) (effects st).
Definition set_plugins (v : gmap string nat) (st : loader) : loader :=
  MkLoader (eventPrefix st) (dimensionConfig st) (experiments st) (logs st) v
    (metrics st) (consentQueue st) (store st) (ticks st) (promises st)
    (handles st) (effects st).
Definition set_metrics (v : gmap string perf) (st : loader) : loader :=
  MkLoader (eventPrefix st) (dimensionConfig st) (experiments st) (logs st)
    (plugins st) v (consentQueue st) (store st) (ticks st) (promises st)
    (handles st) (effects st).
Definition set_consentQueue (v : list (nat * nat)) (st : loader) : loader :=
  MkLoader (eventPrefix st) (dimensionConfig st) (experiments st) (logs st)
    (plugins st) (metrics st) v (store st) (ticks st) (promises st)
    (handles st) (effects st).
Definition set_store (v : list plugin) (st : loader) : loader :=
  MkLoader (eventPrefix st) (dimensionConfig st) (experiments st) (logs st)
    (plugins st) (metrics st) (consentQueue st) v (ticks st) (promises st)
    (handles st) (effects st).
Definition set_ticks (v : nat) (st : loader) : loader :=
  MkLoader (eventPrefix st) (dimensionConfig st) (experiments st) (logs st)
    (plugins st) (metrics st) (consentQueue st) (store st) v (promises st)
    (handles st) (effects st).
Definition set_promises (v : nat) (st : loader) : loader :=
  MkLoader (eventPrefix st) (dimensionConfig st) (experiments st) (logs st)
    (plugins st) (metrics st) (consentQueue st) (store st) (ticks st) v
    (handles st) (effects st).
Definition set_handles (v : nat) (st : loader) : loader :=
  MkLoader (eventPrefix st) (dimensionConfig st) (experiments st) (logs st)
    (plugins st) (metrics st) (consentQueue st) (store st) (ticks st)
    (promises st) v (effects st).
Definition set_effects (v : list effect) (st : loader) : loader :=
  MkLoader (eventPrefix st) (dimensionConfig st) (experiments st) (logs st)
    (plugins st) (metrics st) (consentQueue st) (store st) (ticks st)
    (promises st) (handles st) v.

(** The argument of the constructor ([dimensions] and [consentCheck] are
    read through [env]). *)
Record loader_config : Type := LoaderConfig {
  lc_eventPrefix : option string;
  lc_dimensionConfig : option (gmap string dim_config)
}.

(** [new PluginLoader(config)]; [generated] is the generated dimension
    configuration, that the one of [config] overrides key by key. *)
Definition new_loader (generated : gmap string dim_config)
    (config : loader_config) : loader :=
  MkLoader (if truthy_str (lc_eventPrefix config)
            then default "plugin" (lc_eventPrefix config) else "plugin")
           (default ∅ (lc_dimensionConfig config) ∪ generated)
           None [] ∅ ∅ [] [] O O O [].

(** [setExperiments(experimentManager)] *)
Definition setExperiments (m : manager plugin) (st : loader) : loader :=
  set_experiments (Some m) st.

(** [timer()] *)
Definition timer (e : env) (st : loader) : Z * loader :=
  (clock e (ticks st), set_ticks (S (ticks st)) st).

Definition emit (x : effect) (st : loader) : loader :=
  set_effects (effects st ++ [x]) st.

(** [log(msg, data)]: the entry is stored; the console is not modelled. *)
Definition log (e : env) (msg : string) (st : loader) : loader :=
  let '(ts, st) := timer e st in
  set_logs (logs st ++ [(ts, msg)]) st.

Definition dquote : string := String (Ascii.ascii_of_N 34) EmptyString.

(** [getContext()] *)
Fixpoint getContext_from (e : env) (entries : list (string * call_result))
    (st : loader) : list (string * jsval) * loader :=
  match entries with
  | [] => ([], st)
  | (key, call) :: rest =>
      match call with
      | Returns v =>
          let '(context, st) := getContext_from e rest st in
          ((key, v) :: context, st)
      | Throws =>
          let st := log e ("Dimension " +:+ dquote +:+ key +:+ dquote +:+ " threw error") st in
          let '(context, st) := getContext_from e rest st in
          ((key, VUndefined) :: context, st)
      end
  end.

Definition getContext (e : env) (st : loader) : list (string * jsval) * loader :=
  getContext_from e (dimensions e) st.

(** [s.split(',')] *)
Fixpoint split_comma (s : string) : list string :=
  match s with
  | EmptyString => [EmptyString]
  | String c s' =>
      if (Ascii.N_of_ascii c =? 44)%N then EmptyString :: split_comma s'
      else match split_comma s' with
           | h :: t => String c h :: t
           | [] => [String c EmptyString]
           end
  end.

(** [(params.get(key) || '').split(',').filter(Boolean)] *)
Definition override_list (param : option string) : list string :=
  filter (fun s => s ≠ "") (split_comma (default "" param)).

(** [getUrlOverrides()], in a page ([window] is defined). *)
Definition getUrlOverrides (e : env) : list string * list string :=
  (override_list (pluginEnable e), override_list (pluginDisable e)).

(** [checkUrlOverride(name)]: the pair of [override] and [enabled]. *)
Definition checkUrlOverride (e : env) (name : string) : bool * bool :=
  let '(enable, disable) := getUrlOverrides e in
  if arr_includes disable "all" then
    if arr_includes enable name then (true, true) else (true, false)
  else if arr_includes enable name then (true, true)
  else if arr_includes disable name then (true, false)
  else (false, true).

(** [checkConsent(requiredStates)] *)
Definition checkConsent (e : env) (requiredStates : list string) : bool :=
  match requiredStates with
  | [] => true
  | _ => if arr_includes requiredStates "all" then true
         else consentCheck e requiredStates
  end.

(** [normalizePluginConfig(config)], given what the call of [timer()] in
    [createPerformanceTracker()] returns. *)
Definition normalizePluginConfig (prefix : string) (now : Z)
    (config : raw_config) : plugin :=
  Plugin (c_name config)
    (if truthy_str (c_id config) then default "" (c_id config) else c_name config)
    (c_url config)
    (if truthy_str (c_type config) then default "" (c_type config) else "js")
    (default true (c_active config))
    (default true (c_async config))
    (toLowerCase (if truthy_str (c_location config)
                  then default "" (c_location config) else "body"))
    (match c_timeout config with
     | Some t => if (t =? 0)%Z then 3000 else t
     | None => 3000
     end)
    (default ["all"] (c_domains config))
    (match c_consentState config with
     | Some l => l
     | None => default ["all"] (c_consent config)
     end)
    (default empty_rules (c_include config))
    (default empty_rules (c_exclude config))
    (default [] (c_attributes config))
    (createPerformanceTracker now)
    (prefix +:+ "." +:+ c_name config)
    None None
    (if truthy_str (c_status config) then default "" (c_status config) else "init").

(** A fresh descriptor enters the store. *)
Definition alloc (p : plugin) (st : loader) : nat * loader :=
  (length (store st), set_store (store st ++ [p]) st).

(** The descriptor at [loc] is assigned to. *)
Definition write (loc : nat) (p : plugin) (st : loader) : loader :=
  set_store (<[loc := p]> (store st)) st.

(** [register(config)]: the location of the descriptor it returns. *)
Definition register (e : env) (config : raw_config) (st : loader) : nat * loader :=
  let '(now, st) := timer e st in
  let '(loc, st) := alloc (normalizePluginConfig (eventPrefix st) now config) st in
  (loc, set_plugins (<[c_name config := loc]> (plugins st)) st).

(** [updateMetrics(plugin)] *)
Definition updateMetrics (p : plugin) (st : loader) : loader :=
  set_metrics (<[name p := performance p]> (metrics st)) st.

(** [publishEvent(name, event, data)] *)
Definition publishEvent (name event : string) (reason : option string)
    (st : loader) : loader :=
  emit (Publish (eventPrefix st +:+ "." +:+ name +:+ "." +:+ event) name event reason) st.

(** [handleInactive(plugin, resolve)] *)
Definition handleInactive (e : env) (loc promise : nat) (st : loader) : loader :=
  match store st !! loc with
  | None => st
  | Some p =>
      let p := set_status "inactive" p in
      let p := set_performance (set_p_status "inactive" (performance p)) p in
      let '(now, st) := timer e st in
      let p := set_performance
                 (set_p_latency (calculateLatency now (performance p)) (performance p)) p in
      let st := write loc p st in
      let st := updateMetrics p st in
      let st := publishEvent (name p) "inactive" None st in
      let st := publishEvent (name p) "complete" None st in
      emit (Resolve promise (Result "inactive" (name p) None None (performance p))) st
  end.

(** [handleIgnore(plugin, reason, resolve)] *)
Definition handleIgnore (e : env) (loc : nat) (reason : string) (promise : nat)
    (st : loader) : loader :=
  match store st !! loc with
  | None => st
  | Some p =>
      let p := set_active false p in
      let p := set_status "ignore" p in
      let p := set_performance (set_p_status "ignore" (performance p)) p in
      let '(now, st) := timer e st in
      let p := set_performance
                 (set_p_latency (calculateLatency now (performance p)) (performance p)) p in
      let st := write loc p st in
      let st := updateMetrics p st in
      let st := emit (CallHook loc (IgnoreFn reason)) st in
      let st := publishEvent (name p) "ignore" (Some reason) st in
      let st := publishEvent (name p) "complete" None st in
      emit (Resolve promise (Result "ignore" (name p) (Some reason) None (performance p))) st
  end.

(** The function that [executeLoad] passes to [setTimeout]; it closes over
    the descriptor and the resolver of the promise. *)
Definition timeout_callback (e : env) (loc promise : nat) (st : loader) : loader :=
  match store st !! loc with
  | None => st
  | Some p =>
      if String.eqb (status p) "requested" then
        let p := set_status "timeout" p in
        let p := set_performance (set_p_status "timeout" (performance p)) p in
        let '(now, st) := timer e st in
        let p := set_performance (set_p_timeout now (performance p)) p in
        let '(now, st) := timer e st in
        let p := set_performance
                   (set_p_latency (calculateLatency now (performance p)) (performance p)) p in
        let st := write loc p st in
        let st := updateMetrics p st in
        let st := emit (CallHook loc TimeoutFn) st in
        let st := publishEvent (name p) "timeout" None st in
        let st := publishEvent (name p) "complete" None st in
        emit (Resolve promise (Result "timeout" (name p) None None (performance p))) st
      else st
  end.

(** [script.onload] *)
Definition onload_callback (e : env) (loc promise : nat) (st : loader) : loader :=
  match store st !! loc with
  | None => st
  | Some p =>
      if String.eqb (status p) "requested" then
        let st := emit (ClearTimeout (timeoutProc p)) st in
        let p := set_status "loaded" p in
        let p := set_performance (set_p_status "loaded" (performance p)) p in
        let '(now, st) := timer e st in
        let p := set_performance (set_p_received now (performance p)) p in
        let '(now, st) := timer e st in
        let p := set_performance
                   (set_p_latency (calculateLatency now (performance p)) (performance p)) p in
        let st := write loc p st in
        let st := updateMetrics p st in
        let st := emit (CallHook loc OnloadFn) st in
        let st := publishEvent (name p) "load" None st in
        let st := publishEvent (name p) "complete" None st in
        emit (Resolve promise (Result "loaded" (name p) None None (performance p))) st
      else st
  end.

(** [script.onerror] *)
Definition onerror_callback (e : env) (loc promise : nat) (err : jsval)
    (st : loader) : loader :=
  match store st !! loc with
  | None => st
  | Some p =>
      if String.eqb (status p) "requested" then
        let st := emit (ClearTimeout (timeoutProc p)) st in
        let p := set_status "error" p in
        let p := set_performance (set_p_status "error" (performance p)) p in
        let '(now, st) := timer e st in
        let p := set_performance (set_p_error now (performance p)) p in
        let '(now, st) := timer e st in
        let p := set_performance
                   (set_p_latency (calculateLatency now (performance p)) (performance p)) p in
        let st := write loc p st in
        let st := updateMetrics p st in
        let st := emit (CallHook loc (OnerrorFn err)) st in
        let st := publishEvent (name p) "error" None st in
        let st := publishEvent (name p) "complete" None st in
        emit (Resolve promise (Result "error" (name p) None (Some err) (performance p))) st
      else st
  end.

(** [executeLoad(plugin, resolve)].  The alarm and the two callbacks of the
    script element are [timeout_callback], [onload_callback] and
    [onerror_callback] at this descriptor and promise; the log entries
    [SetTimeout] and [AppendScript] say that they are armed. *)
Definition executeLoad (e : env) (loc promise : nat) (st : loader) : loader :=
  match store st !! loc with
  | None => st
  | Some p =>
      let alarm := handles st in
      let st := set_handles (S alarm) st in
      let st := emit (SetTimeout alarm loc promise (timeout p)) st in
      let p := set_timeoutProc (Some alarm) p in
      let '(now, st) := timer e st in
      let p := set_performance (set_p_preload now (performance p)) p in
      let st := emit (CallHook loc PreloadFn) st in
      let script := handles st in
      let st := set_handles (S script) st in
      let p := set_tag (Some script) p in
      if truthy_str (url p) then
        let p := set_status "requested" p in
        let p := set_performance (set_p_status "requested" (performance p)) p in
        let '(now, st) := timer e st in
        let p := set_performance (set_p_requested now (performance p)) p in
        let st := write loc p st in
        emit (AppendScript script loc promise (default "" (url p)) (location p)) st
      else
        handleIgnore e loc "No URL provided" promise (write loc p st)
  end.

(** The experiments, when a manager is set, are applied to the descriptor
    in place. *)
Definition apply_experiments (loc : nat) (p : plugin) (st : loader)
    : plugin * loader :=
  match experiments st with
  | Some m =>
      let '(m', p') := apply (Some (name p)) p m in
      (p', set_experiments (Some m') (write loc p' st))
  | None => (p, st)
  end.

(** [evaluateTargeting] on the normalized rules of a descriptor. *)
Definition plugin_targeting (p : plugin) (context : list (string * jsval))
    (st : loader) : verdict :=
  let '(inc, exc) := normalizeTargetingConfig (include p) (exclude p) in
  evaluateTargeting inc exc context (dimensionConfig st).

(** [this.plugins[config.name] || this.normalizePluginConfig(config)]: the
    stored descriptor when there is one under the name, a fresh one
    otherwise. *)
Definition descriptor_of (e : env) (config : raw_config) (st : loader)
    : nat * loader :=
  match plugins st !! c_name config with
  | Some loc => (loc, st)
  | None =>
      let '(now, st) := timer e st in
      alloc (normalizePluginConfig (eventPrefix st) now config) st
  end.

(** The URL override check of [load]: the descriptor as the check leaves
    it, and the event it publishes. *)
Definition url_override (e : env) (p : plugin) (st : loader) : plugin * loader :=
  let '(override, enabled) := checkUrlOverride e (name p) in
  if override then
    if enabled then
      let p := set_include empty_rules p in
      let p := set_exclude empty_rules p in
      let p := set_domains ["all"] p in
      let p := set_consentState ["all"] p in
      (p, publishEvent (name p) "override.enabled" None st)
    else
      (set_active false p, publishEvent (name p) "override.disabled" None st)
  else (p, st).

(** The checks of [load] that follow the URL override check, on the
    descriptor [p] that is stored at [loc]. *)
Definition load_checks (e : env) (loc promise : nat) (p : plugin) (st : loader)
    : loader :=
  if negb (active p) then handleInactive e loc promise st
  else if negb (checkConsent e (consentState p)) then
    let st := set_consentQueue (consentQueue st ++ [(loc, promise)]) st in
    publishEvent (name p) "consent.pending" None st
  else if negb (matchesDomain (Some (domains p)) (host e)) then
    handleIgnore e loc "Domain mismatch" promise st
  else
    let '(p, st) := apply_experiments loc p st in
    let '(context, st) := getContext e st in
    let result := plugin_targeting p context st in
    if negb (matched result) then handleIgnore e loc (reason result) promise st
    else executeLoad e loc promise st.

(** [load(config)]: the body of the promise; the promise it returns is the
    one numbered [promises st]. *)
Definition load (e : env) (config : raw_config) (st : loader) : loader :=
  let promise := promises st in
  let st := set_promises (S promise) st in
  let '(loc, st) := descriptor_of e config st in
  match store st !! loc with
  | None => st
  | Some p =>
      let st := set_plugins (<[name p := loc]> (plugins st)) st in
      let '(p, st) := url_override e p st in
      let st := write loc p st in
      load_checks e loc promise p st
  end.

(** The body of the loop of [processConsentQueue] for one queued entry. *)
Definition process_entry (e : env) (st : loader) (entry : nat * nat) : loader :=
  let '(loc, promise) := entry in
  match store st !! loc with
  | None => st
  | Some p =>
      if checkConsent e (consentState p) then
        let '(context, st) := getContext e st in
        let result := plugin_targeting p context st in
        if matched result && matchesDomain (Some (domains p)) (host e) then
          executeLoad e loc promise st
        else
          handleIgnore e loc
            (if String.eqb (reason result) "" then "Domain mismatch" else reason result)
            promise st
      else
        set_consentQueue (consentQueue st ++ [(loc, promise)]) st
  end.

(** [processConsentQueue()] *)
Definition processConsentQueue (e : env) (st : loader) : loader :=
  let queue := consentQueue st in
  let st := set_consentQueue [] st in
  fold_left (process_entry e) queue st.

(** [getPlugin(name)] *)
Definition getPlugin (name : string) (st : loader) : option plugin :=
  plugins st !! name ≫= fun loc => store st !! loc.

(** [getMetrics()] *)
Definition getMetrics (st : loader) : gmap string perf := metrics st.

Arguments handleInactive : simpl never.
Arguments handleIgnore : simpl never.
Arguments executeLoad : simpl never.
Arguments timeout_callback : simpl never.
Arguments onload_callback : simpl never.
Arguments onerror_callback : simpl never.
Arguments getContext_from : simpl never.
Arguments checkUrlOverride : simpl never.
Arguments load_checks : simpl never.
Arguments process_entry : simpl never.

End Loader.

(** ** pubsub.js: the publish/subscribe bus

    The subscribers are opaque functions, named by a number; a call of one
    of them is an entry of the call log, with the data it is given.  A
    subscriber is taken to return normally and not to call the bus while
    it runs.  The random instance id is left out. *)

Module PubSub.

Section WithData.
Context {Data : Type}.

Record subscription : Type := Subscription {
  token : string;
  topic : string;
  func : nat
}.

Record pubsub : Type := MkPubSub {
  topics : list subscription;
  publishedTopics : list string;
  uid : Z;
  calls : list (nat * option Data)
}.

(** [new PubSub()] *)
Definition create : pubsub := MkPubSub [] [] (-1) [].

Definition call (f : nat) (data : option Data) (s : pubsub) : pubsub :=
  MkPubSub (topics s) (publishedTopics s) (uid s) (calls s ++ [(f, data)]).

(** The loop of [subscribe] over the published topics, that calls the
    function at the first occurrence of the topic and stops. *)
Fixpoint run_if_published (published : list string) (t : string) (f : nat)
    (s : pubsub) : pubsub :=
  match published with
  | [] => s
  | t' :: rest =>
      if String.eqb t' t then call f None s else run_if_published rest t f s
  end.

(** [subscribe({topic, func, runIfAlreadyPublished})]; [func = None] is an
    argument that is not a function, and the answer [None] is [false]. *)
Definition subscribe (t : string) (f : option nat) (runIfAlreadyPublished : bool)
    (s : pubsub) : pubsub * option string :=
  match f with
  | None => (s, None)
  | Some f =>
      let s := if runIfAlreadyPublished
               then run_if_published (publishedTopics s) t f s else s in
      let uid' := (uid s + 1)%Z in
      let tok := pretty uid' in
      (MkPubSub (topics s ++ [Subscription tok t f]) (publishedTopics s) uid'
                (calls s),
       Some tok)
  end.

(** The loop of [unsubscribe]: the list without the first subscription
    that has the token and the topic, when there is one. *)
Fixpoint splice_first (l : list subscription) (t tok : string)
    : option (list subscription) :=
  match l with
  | [] => None
  | x :: l' =>
      if String.eqb (token x) tok && String.eqb (topic x) t then Some l'
      else cons x <$> splice_first l' t tok
  end.

(** [unsubscribe({topic, token})] *)
Definition unsubscribe (t tok : string) (s : pubsub) : pubsub * bool :=
  match splice_first (topics s) t tok with
  | Some l => (MkPubSub l (publishedTopics s) (uid s) (calls s), true)
  | None => (s, false)
  end.

(** The loop of [publish] over the subscriptions. *)
Fixpoint deliver (l : list subscription) (t : string) (data : Data)
    (s : pubsub) : pubsub :=
  match l with
  | [] => s
  | x :: l' =>
      if String.eqb (topic x) t then deliver l' t data (call (func x) (Some data) s)
      else deliver l' t data s
  end.

(** [publish({topic, data})] *)
Definition publish (t : string) (data : Data) (s : pubsub) : pubsub :=
  let s := MkPubSub (topics s) (publishedTopics s ++ [t]) (uid s) (calls s) in
  deliver (topics s) t data s.

(** [hasPublished(topic)] *)
Definition hasPublished (t : string) (s : pubsub) : bool :=
  arr_includes (publishedTopics s) t.

(** [clear()]; the call log is that of the page and stays. *)
Definition clear (s : pubsub) : pubsub := MkPubSub [] [] (-1) (calls s).

End WithData.
Arguments pubsub : clear implicits.
Arguments deliver : simpl never.

End PubSub.

(** ** matrix entry: the choice of the bundles *)

Module Matrix.






End Matrix.

(** ** Notions used in the statements *)

Module Notions.
Import Targeting Experiments Loader.

(** The comparison that the [switch] of [matchesRule] and [isExcluded]
    selects, on a normalized value and a normalized rule. *)
Definition rule_hit (matchType v rule : string) : bool :=
  if String.eqb matchType "startsWith" then startsWith v rule
  else if String.eqb matchType "includes" then str_includes v rule
  else String.eqb v rule.

(** The object has a [special] function and a call of it returns [true]. *)
Definition returns_true (o : rules_obj) : Prop :=
  ∃ f, special o = Some f ∧ f tt = Returns (VBool true).

(** The object has a [special] function and a call of it throws. *)
Definition special_throws (o : rules_obj) : Prop :=
  ∃ f, special o = Some f ∧ f tt = Throws.

(** The same object with a [special] function that returns [false]. *)
Definition with_false_special (o : rules_obj) : rules_obj :=
  RulesObj (Some (fun _ => Returns (VBool false))) (dims o).

(** The bucket of the manager lies in the test range of the experiment. *)
Definition in_range {D} (m : manager D) (exp : experiment D) : Prop :=
  (fst (testRange exp) <= testgroup m <= snd (testRange exp))%Z.

(** The manager with another bucket. *)
Definition with_testgroup {D} (tg : Z) (m : manager D) : manager D :=
  Manager (mgr_active m) tg (Experiments.getContext m) (mgr_dimensionConfig m)
          (registry m) (applied m) (eligible m).

(** The three callbacks that [executeLoad] arms for a descriptor and a
    promise, and what the page does when one of them is called. *)
Inductive callback : Type :=
| AlarmFires
| ScriptLoaded
| ScriptFailed (err : jsval).

Definition fire (e : env) (loc promise : nat) (cb : callback) (st : loader)
    : loader :=
  match cb with
  | AlarmFires => timeout_callback e loc promise st
  | ScriptLoaded => onload_callback e loc promise st
  | ScriptFailed err => onerror_callback e loc promise err st
  end.




(** The number of descriptors ever created and the map from names to
    descriptors. *)
Definition shape (st : loader) : nat * gmap string nat :=
  (length (store st), plugins st).

End Notions.
Import Notions.


(** ** Concrete scenarios *)

Module Scenarios.
Import Targeting Experiments Loader.

(** An experiment on plugin "a" for the buckets 0 to 24; its [apply]
    replaces the configuration (here a plain url) by "v2". *)
Definition exp_v2 : experiment string :=
  Experiment "e1" true (0, 24) (Some "a") (Some empty_rules) (Some empty_rules)
             (fun _ => Applied "v2").

(** The same experiment with an [apply] that throws. *)
Definition exp_throwing : experiment string :=
  Experiment "e1" true (0, 24) (Some "a") (Some empty_rules) (Some empty_rules)
             (fun cfg => ApplyThrew cfg).

(** A global experiment, registered after "e1". *)
Definition exp_global : experiment string :=
  Experiment "e2" true (50, 99) None (Some empty_rules) (Some empty_rules)
             (fun cfg => Applied cfg).

Definition mgr_of (on : bool) (tg : Z) (reg : list (string * experiment string))
    : manager string :=
  Manager on tg (fun _ => [("section", VStr "sport")]) ∅ reg [] [].

(** A page: the clock advances by ten at every reading, the host is
    "example.com" and the only dimension is the section. *)
Definition page (consent : bool) (enable disable : option string)
    (section : string) : env :=
  Env (fun n => Z.of_nat n * 10)%Z "example.com" enable disable
      (fun _ => consent) [("section", Returns (VStr section))].

Definition config_of (name : string) (url : option string) (on : option bool)
    (consent : option (list string)) (domains : option (list string))
    (exclude : option rules_obj) : raw_config :=
  RawConfig name None url None on None None None domains consent None None
            exclude None None.

(** A plugin that needs the "analytics" consent. *)
Definition cfg_a : raw_config :=
  config_of "a" (Some "https://x/v1.js") None (Some ["analytics"]) None None.

(** The same plugin without a url. *)
Definition cfg_no_url : raw_config :=
  config_of "a" None None None None None.

(** A plugin that is switched off in its configuration. *)
Definition cfg_off : raw_config :=
  config_of "a" (Some "https://x/v1.js") (Some false) None None None.


(** An experiment on plugin "a" that every bucket is in; its [apply]
    points the plugin to another url. *)
Definition exp_url : experiment plugin :=
  Experiment "e1" true (0, 99) (Some "a") (Some empty_rules) (Some empty_rules)
             (fun p => Applied (set_url (Some "https://x/v2.js") p)).

Definition mgr_url : manager plugin :=
  Manager true 10 (fun _ => [("section", VStr "sport")]) ∅ [("e1", exp_url)] [] [].



Definition fresh : loader := new_loader ∅ (LoaderConfig None None).

Definition fresh_with_experiments : loader := setExperiments mgr_url fresh.

End Scenarios.

(** ** Further notions *)

Module MoreNotions.
Import Targeting Experiments Loader.


(** The entry that [register] stores for a raw experiment with this id. *)
Definition entry_of {D} (r : raw_experiment D) (id : string) : experiment D :=
  Experiment id
    (default true (r_active r))
    (default (0, 99)%Z (r_testRange r))
    (if truthy_str (r_plugin r) then r_plugin r else None)
    (Some (default empty_rules (r_include r)))
    (Some (default empty_rules (r_exclude r)))
    (default (fun cfg => Applied cfg) (r_apply r)).

(** What a dimension contributes to the context. *)
Definition dimension_value (c : call_result) : jsval :=
  match c with
  | Returns v => v
  | Throws => VUndefined
  end.

Definition dimension_throws (c : call_result) : bool :=
  match c with
  | Returns _ => false
  | Throws => true
  end.

(** The number of dimensions of the page that throw when they are read. *)
Definition throwing (e : env) : nat :=
  length (List.filter (fun kc => dimension_throws kc.2) (dimensions e)).

(** The status that a callback gives to a requested descriptor, and the
    timestamp it records. *)
Definition outcome (cb : callback) : string :=
  match cb with
  | AlarmFires => "timeout"
  | ScriptLoaded => "loaded"
  | ScriptFailed _ => "error"
  end.

Definition stamp (cb : callback) (pf : perf) : Z :=
  match cb with
  | AlarmFires => p_timeout pf
  | ScriptLoaded => p_received pf
  | ScriptFailed _ => p_error pf
  end.

(** The consent of a queued entry is still refused on the page. *)
Definition still_denied (e : env) (st : loader) (entry : nat * nat) : bool :=
  match store st !! entry.1 with
  | Some p => negb (checkConsent e (consentState p))
  | None => false
  end.

(** The consent state of the descriptor at a location. *)
Definition consent_of (st : loader) (loc : nat) : option (list string) :=
  consentState <$> store st !! loc.

(** The effect is one that only [executeLoad] has: an alarm is armed or a
    script element is attached. *)
Definition is_request (x : effect) : bool :=
  match x with
  | SetTimeout _ _ _ _ | AppendScript _ _ _ _ _ => true
  | _ => false
  end.

(** The descriptor at a location has left the queue for good: it is
    requested or ignored. *)
Definition settled (st : loader) (loc : nat) : Prop :=
  ∃ p, store st !! loc = Some p ∧ (status p = "requested" ∨ status p = "ignore").

(** The tokens of the subscriptions are the decimal forms of numbers from
    0 to the counter of the bus. *)
Definition tokens_ok {Data} (s : PubSub.pubsub Data) : Prop :=
  (-1 <= PubSub.uid s)%Z
  ∧ ∀ x, x ∈ PubSub.topics s →
         ∃ n : Z, (0 <= n <= PubSub.uid s)%Z ∧ PubSub.token x = pretty n.

(** The subscription is to the topic. *)
Definition on_topic (t : string) (x : PubSub.subscription) : bool :=
  String.eqb (PubSub.topic x) t.


End MoreNotions.
Import MoreNotions.
(** ** Properties of the targeting engine *)

Section TargetingFacts.
Import Targeting.

Lemma arr_includes_true {A} `{EqDecision A} (l : list A) (x : A) :
  arr_includes l x = true ↔ x ∈ l.
Proof.
  unfold arr_includes. rewrite existsb_exists. split.
  - intros (y & Hin & Hy). apply bool_decide_eq_true in Hy. subst y.
    by apply list_elem_of_In.
  - intros Hin. exists x. split; [by apply list_elem_of_In|].
    by apply bool_decide_eq_true.
Qed.

Lemma matchesRule_all (value : jsval) (rules : list jsval) (mt : string) :
  VStr "all" ∈ rules → matchesRule value (Some rules) mt = true.
Proof.
  intros Hin. unfold matchesRule.
  destruct rules as [|r rules]; [done|].
  apply arr_includes_true in Hin. rewrite Hin.
  by rewrite orb_true_r.
Qed.

Lemma matchesDomain_all (domains : list string) (host : string) :
  "all" ∈ domains → matchesDomain (Some domains) host = true.
Proof.
  intros Hin. unfold matchesDomain.
  destruct domains as [|d domains]; [done|].
  apply arr_includes_true in Hin. by rewrite Hin.
Qed.

Lemma isExcluded_hit (value : jsval) (rules : list jsval) (mt : string) :
  isExcluded value (Some rules) mt
  = existsb (fun rule => rule_hit mt (toLowerCase (js_String value))
                                  (toLowerCase (js_String rule))) rules.
Proof.
  unfold isExcluded, rule_hit. destruct rules as [|r rules]; [done|].
  destruct (String.eqb mt "startsWith"); [done|].
  by destruct (String.eqb mt "includes").
Qed.

Lemma special_says_true_iff (o : rules_obj) :
  special_says_true o = true ↔ returns_true o.
Proof.
  unfold special_says_true, returns_true. split.
  - destruct (special o) as [f|]; [|done].
    destruct (f tt) as [[| |[]| |]|] eqn:Hf; try done. eauto.
  - intros (f & -> & ->). done.
Qed.

Lemma special_says_true_throws (o : rules_obj) :
  special_throws o → special_says_true o = false.
Proof. intros (f & Hs & Hf). unfold special_says_true. by rewrite Hs, Hf. Qed.

Lemma eval_dimensions_dims (i1 i2 e1 e2 : rules_obj) context cfg :
  dims i1 = dims i2 → dims e1 = dims e2 →
  eval_dimensions i1 e1 context cfg = eval_dimensions i2 e2 context cfg.
Proof.
  intros Hi He. induction context as [|[d v] rest IH]; [done|].
  simpl. unfold has_rules, rule_list. rewrite Hi, He, IH. done.
Qed.

(** C3 (as amended).  When the rule list contains "all", [matchesRule]
    returns true for every value and match type, at whatever position the
    wildcard stands, and so does [matchesDomain] for every host.
    [isExcluded] has no wildcard: it returns true exactly when the
    normalized value matches one of the normalized rules under the match
    type, "all" being a rule like the others. *)
Theorem wildcard_all_matches (rules : list jsval) (domains : list string)
    (value : jsval) (mt host : string) :
  VStr "all" ∈ rules → "all" ∈ domains →
  matchesRule value (Some rules) mt = true
  ∧ matchesDomain (Some domains) host = true
  ∧ (isExcluded value (Some rules) mt = true ↔
     ∃ rule, rule ∈ rules
             ∧ rule_hit mt (toLowerCase (js_String value))
                           (toLowerCase (js_String rule)) = true).
Proof.
  intros Hr Hd. split; [by apply matchesRule_all|].
  split; [by apply matchesDomain_all|].
  rewrite isExcluded_hit, existsb_exists.
  split; intros (rule & Hin & Hhit); exists rule;
    (split; [by apply list_elem_of_In|done]).
Qed.

Lemma wildcard_all_matches_witness :
  matchesRule (VStr "sport") (Some [VStr "news"; VStr "all"]) "exact" = true
  ∧ matchesDomain (Some ["example.com"; "all"]) "other.org" = true
  ∧ (isExcluded (VStr "sport") (Some [VStr "news"; VStr "all"]) "exact" = true ↔
     ∃ rule, rule ∈ [VStr "news"; VStr "all"]
             ∧ rule_hit "exact" (toLowerCase (js_String (VStr "sport")))
                                (toLowerCase (js_String rule)) = true).
Proof.
  apply (wildcard_all_matches [VStr "news"; VStr "all"] ["example.com"; "all"]
           (VStr "sport") "exact" "other.org").
  - apply list_elem_of_In. simpl. auto.
  - apply list_elem_of_In. simpl. auto.
Defined.

(** C3, as stated, fails for [isExcluded]: the list ["all"] does not
    exclude the value "sport". *)
Lemma isExcluded_all_counterexample :
  VStr "all" ∈ [VStr "all"]
  ∧ isExcluded (VStr "sport") (Some [VStr "all"]) "exact" = false
  ∧ isExcluded (VStr "sport") (Some [VStr "all"]) "startsWith" = false
  ∧ isExcluded (VStr "sport") (Some [VStr "all"]) "includes" = false.
Proof. split; [apply list_elem_of_here|]. by vm_compute. Qed.

(** C5 (as amended).  [evaluateTargeting] short-circuits on the special
    predicates, [exclude] first: when [exclude.special()] returns true the
    result is not matched with reason "Excluded by special function";
    otherwise when [include.special()] returns true the result is matched
    with reason "Included by special function", whatever the rule lists
    say; a special predicate that throws gives the result of one that
    returns false.  The reasons start with a capital letter. *)
Theorem special_short_circuit (include exclude : rules_obj)
    (context : list (string * jsval)) (cfg : gmap string dim_config) :
  (returns_true exclude →
     evaluateTargeting include exclude context cfg
     = Verdict false "Excluded by special function")
  ∧ (¬ returns_true exclude → returns_true include →
     evaluateTargeting include exclude context cfg
     = Verdict true "Included by special function")
  ∧ (special_throws exclude →
     evaluateTargeting include exclude context cfg
     = evaluateTargeting include (with_false_special exclude) context cfg)
  ∧ (special_throws include →
     evaluateTargeting include exclude context cfg
     = evaluateTargeting (with_false_special include) exclude context cfg).
Proof.
  unfold evaluateTargeting. repeat split.
  - intros He. apply special_says_true_iff in He. by rewrite He.
  - intros He Hi. apply special_says_true_iff in Hi.
    destruct (special_says_true exclude) eqn:E.
    + by apply special_says_true_iff in E.
    + by rewrite Hi.
  - intros Ht. rewrite (special_says_true_throws _ Ht). simpl.
    by rewrite (eval_dimensions_dims include include exclude (with_false_special exclude)).
  - intros Ht. rewrite (special_says_true_throws _ Ht). simpl.
    by rewrite (eval_dimensions_dims include (with_false_special include) exclude exclude).
Qed.

Lemma special_short_circuit_witness :
  let yes := RulesObj (Some (fun _ => Returns (VBool true))) ∅ in
  let boom := RulesObj (Some (fun _ => Throws)) {["section" := [VStr "sport"]]} in
  let context := [("section", VStr "news")] in
  evaluateTargeting boom yes context ∅ = Verdict false "Excluded by special function"
  ∧ evaluateTargeting yes boom context ∅ = Verdict true "Included by special function"
  ∧ evaluateTargeting empty_rules boom context ∅
    = evaluateTargeting empty_rules (with_false_special boom) context ∅
  ∧ evaluateTargeting boom empty_rules context ∅
    = evaluateTargeting (with_false_special boom) empty_rules context ∅.
Proof.
  intros yes boom context.
  assert (Hyes : returns_true yes) by (eexists; split; reflexivity).
  assert (Hboom : special_throws boom) by (eexists; split; reflexivity).
  assert (Hno : ¬ returns_true boom).
  { intros (f & Hs & Hf). injection Hs as <-. discriminate Hf. }
  split; [exact (proj1 (special_short_circuit boom yes context ∅) Hyes)|].
  split; [exact (proj1 (proj2 (special_short_circuit yes boom context ∅)) Hno Hyes)|].
  split; [exact (proj1 (proj2 (proj2 (special_short_circuit empty_rules boom context ∅))) Hboom)|].
  exact (proj2 (proj2 (proj2 (special_short_circuit boom empty_rules context ∅))) Hboom).
Defined.

(** C5, as stated, fails on the reason strings: they are capitalized. *)
Lemma special_reason_counterexample :
  let yes := RulesObj (Some (fun _ => Returns (VBool true))) ∅ in
  evaluateTargeting empty_rules yes [] ∅ ≠ Verdict false "excluded by special function"
  ∧ evaluateTargeting yes empty_rules [] ∅ ≠ Verdict true "included by special function".
Proof. split; by vm_compute. Qed.

(** The worked examples of the specification. *)
Example startsWith_example :
  matchesRule (VStr "sport.football") (Some [VStr "sport"]) "startsWith" = true
  ∧ matchesRule (VStr "news") (Some [VStr "sport"]) "startsWith" = false.
Proof. by vm_compute. Qed.

Example includes_example :
  matchesRule (VStr "uk-sport-news") (Some [VStr "sport"]) "includes" = true.
Proof. by vm_compute. Qed.

Example exclude_wins_example :
  evaluateTargeting (RulesObj None {["zone" := [VStr "sport"]]})
                    (RulesObj None {["zone" := [VStr "Sport"]]})
                    [("zone", VStr "sport")] ∅
  = Verdict false "Excluded by zone: sport".
Proof. by vm_compute. Qed.

Example not_included_example :
  evaluateTargeting (RulesObj None {["section" := [VStr "sport"]]}) empty_rules
                    [("section", VStr "news")] ∅
  = Verdict false "Not included by section: news"
  ∧ evaluateTargeting (RulesObj None {["section" := [VStr "sport"]]}) empty_rules
                      [("section", VStr "sport.football")]
                      {["section" := DimConfig (Some "startsWith")]}
    = Verdict true "All targeting rules passed".
Proof. by vm_compute. Qed.

End TargetingFacts.

(** ** Properties of the experiment manager *)

Section ExperimentFacts.
Import Targeting Experiments.
Context {D : Type}.
Implicit Types (m : manager D) (exp : experiment D) (cfg : D).

Lemma isInExperiment_iff m id :
  isInExperiment m id = true ↔
  mgr_active m = true
  ∧ ∃ exp, Obj.get (registry m) id = Some exp
           ∧ exp_active exp = true ∧ in_range m exp.
Proof.
  unfold isInExperiment, in_range. split.
  - destruct (mgr_active m); simpl; [|done].
    destruct (Obj.get (registry m) id) as [exp|]; [|done].
    destruct (exp_active exp) eqn:Ea; simpl; [|done].
    destruct (testRange exp) as [min max] eqn:Er; simpl.
    intros H. apply andb_true_iff in H as [H1 H2].
    apply Z.geb_le in H1. apply Z.leb_le in H2.
    split; [done|]. exists exp. rewrite Er. simpl. auto.
  - intros (-> & exp & -> & -> & H). simpl.
    destruct (testRange exp) as [min max]; simpl in *.
    apply andb_true_iff. rewrite Z.geb_le, Z.leb_le. lia.
Qed.

(** The answer depends on the manager only through its [active] flag, its
    bucket and the [active] flag and test range registered under the id. *)
Lemma isInExperiment_stable m1 m2 id :
  mgr_active m1 = mgr_active m2 →
  testgroup m1 = testgroup m2 →
  exp_active <$> Obj.get (registry m1) id = exp_active <$> Obj.get (registry m2) id →
  testRange <$> Obj.get (registry m1) id = testRange <$> Obj.get (registry m2) id →
  isInExperiment m1 id = isInExperiment m2 id.
Proof.
  unfold isInExperiment. intros -> -> Ha Hr.
  destruct (Obj.get (registry m1) id) as [e1|], (Obj.get (registry m2) id) as [e2|];
    simpl in *; try done.
  injection Ha as ->. injection Hr as ->. done.
Qed.

(** What one step of the loop of [apply] leaves alone. *)
Lemma apply_entry_frame pn m cfg entry :
  let m' := (apply_entry pn (m, cfg) entry).1 in
  mgr_active m' = mgr_active m ∧ testgroup m' = testgroup m
  ∧ getContext m' = getContext m
  ∧ mgr_dimensionConfig m' = mgr_dimensionConfig m
  ∧ registry m' = registry m.
Proof.
  destruct entry as [id exp]. unfold apply_entry.
  destruct (exp_active exp && isMatch pn exp); [|done].
  destruct (targetingMatches m exp); [|done].
  destruct (isInExperiment m id); [|done].
  by destruct (exp_apply exp cfg).
Qed.

Lemma apply_loop_frame pn l m cfg :
  let m' := (fold_left (apply_entry pn) l (m, cfg)).1 in
  mgr_active m' = mgr_active m ∧ testgroup m' = testgroup m
  ∧ getContext m' = getContext m
  ∧ mgr_dimensionConfig m' = mgr_dimensionConfig m
  ∧ registry m' = registry m.
Proof.
  revert m cfg. induction l as [|entry l IH]; intros m cfg; [done|].
  simpl. destruct (apply_entry pn (m, cfg) entry) as [m1 cfg1] eqn:E.
  pose proof (apply_entry_frame pn m cfg entry) as F. rewrite E in F. simpl in F.
  specialize (IH m1 cfg1). simpl in IH.
  destruct F as (F1 & F2 & F3 & F4 & F5), IH as (I1 & I2 & I3 & I4 & I5).
  repeat split; congruence.
Qed.

Lemma apply_frame pn cfg m :
  let m' := (apply pn cfg m).1 in
  mgr_active m' = mgr_active m ∧ testgroup m' = testgroup m
  ∧ getContext m' = getContext m
  ∧ mgr_dimensionConfig m' = mgr_dimensionConfig m
  ∧ registry m' = registry m.
Proof.
  unfold apply. destruct (negb (mgr_active m)) eqn:E; [done|].
  apply apply_loop_frame.
Qed.

Lemma targetingMatches_frame m1 m2 exp :
  getContext m1 = getContext m2 →
  mgr_dimensionConfig m1 = mgr_dimensionConfig m2 →
  targetingMatches m1 exp = targetingMatches m2 exp.
Proof. unfold targetingMatches. by intros -> ->. Qed.



(** The keys of an object are distinct: [Obj.set] and [Obj.delete] keep
    them so, which makes it an invariant of the registry from the empty
    one of the constructor on. *)
Lemma obj_get_None {V} (o : list (string * V)) (k : string) :
  Obj.get o k = None ↔ k ∉ o.*1.
Proof.
  induction o as [|[k' v] o IH]; simpl.
  - split; [intros _; apply not_elem_of_nil|done].
  - rewrite not_elem_of_cons. destruct (String.eqb k' k) eqn:E.
    + apply String.eqb_eq in E. subst k'. split; [done|]. by intros [? _].
    + apply String.eqb_neq in E. rewrite IH. split; [by intros ?|by intros [_ ?]].
Qed.

Lemma obj_replace_keys {V} (o : list (string * V)) (k : string) (v : V) :
  (Obj.replace o k v).*1 = o.*1.
Proof.
  induction o as [|[k' v'] o IH]; [done|]. cbn [Obj.replace].
  destruct (String.eqb k' k); rewrite !fmap_cons; [done|]. by rewrite IH.
Qed.

Lemma obj_insert_index_keys {V} (o : list (string * V)) n (k : string) (v : V) :
  (Obj.insert_index o n k v).*1 ≡ₚ k :: o.*1.
Proof.
  induction o as [|[k' v'] o IH]; [done|]. cbn [Obj.insert_index].
  destruct (Obj.array_index k') as [n'|]; [|done].
  destruct (n' <? n)%N; [|done]. rewrite !fmap_cons, IH. apply Permutation_swap.
Qed.

Lemma obj_set_NoDup {V} (o : list (string * V)) (k : string) (v : V) :
  NoDup o.*1 → NoDup (Obj.set o k v).*1.
Proof.
  intros Hnd. unfold Obj.set. destruct (Obj.get o k) eqn:Hg.
  - by rewrite obj_replace_keys.
  - apply obj_get_None in Hg. destruct (Obj.array_index k).
    + rewrite obj_insert_index_keys. by apply NoDup_cons.
    + rewrite fmap_app. simpl. apply NoDup_app. split; [done|].
      split; [|apply NoDup_singleton].
      intros x Hx Hk. apply list_elem_of_singleton in Hk. by subst x.
Qed.

Lemma obj_delete_keys_sub {V} (o : list (string * V)) (k : string) :
  (Obj.delete o k).*1 `sublist_of` o.*1.
Proof.
  induction o as [|[k' v] o IH]; [done|]. cbn [Obj.delete].
  destruct (String.eqb k' k); rewrite ?fmap_cons.
  - by apply sublist_cons.
  - by apply sublist_skip.
Qed.

Lemma obj_delete_NoDup {V} (o : list (string * V)) (k : string) :
  NoDup o.*1 → NoDup (Obj.delete o k).*1.
Proof. intros Hnd. eapply sublist_NoDup; [exact Hnd|]. apply obj_delete_keys_sub. Qed.

Lemma registry_NoDup_register (r : raw_experiment D) m :
  NoDup (registry m).*1 → NoDup (registry (register r m).1).*1.
Proof.
  intros Hnd. unfold register. destruct (truthy_str (r_id r)); [|done].
  simpl. by apply obj_set_NoDup.
Qed.

Lemma registry_NoDup_unregister id m :
  NoDup (registry m).*1 → NoDup (registry (unregister id m)).*1.
Proof. intros Hnd. unfold unregister. simpl. by apply obj_delete_NoDup. Qed.

Lemma registry_NoDup_apply pn cfg m :
  NoDup (registry m).*1 → NoDup (registry (apply pn cfg m).1).*1.
Proof.
  intros Hnd. destruct (apply_frame pn cfg m) as (_ & _ & _ & _ & ->). done.
Qed.

(** The loop of [apply] at an entry in the middle of the registry: the
    state in which the entry is met, and the answers of [targetingMatches]
    and [isInExperiment] there. *)
Lemma apply_at_entry pn cfg m l1 id exp l2 :
  mgr_active m = true →
  registry m = l1 ++ (id, exp) :: l2 →
  let st1 := fold_left (apply_entry pn) l1 (m, cfg) in
  apply pn cfg m = fold_left (apply_entry pn) l2 (apply_entry pn st1 (id, exp))
  ∧ targetingMatches st1.1 exp = targetingMatches m exp
  ∧ isInExperiment st1.1 id = isInExperiment m id.
Proof.
  intros Hact Hreg st1. unfold apply. rewrite Hact. simpl.
  rewrite Hreg at 1. rewrite fold_left_app. simpl. split; [done|].
  destruct (apply_loop_frame pn l1 m cfg) as (Ha & Htg & Hctx & Hdc & Hr).
  fold st1 in Ha, Htg, Hctx, Hdc, Hr.
  split; [by apply targetingMatches_frame|].
  apply isInExperiment_stable; by rewrite ?Hr.
Qed.



Lemma isMatch_named (n : string) exp :
  n ≠ "" → (isMatch (Some n) exp = true ↔ exp_plugin exp = Some n).
Proof.
  intros Hn. unfold isMatch. simpl.
  destruct (String.eqb n "") eqn:E; [by apply String.eqb_eq in E|]. simpl.
  apply bool_decide_eq_true.
Qed.


Lemma isInExperiment_with_testgroup m id exp tg :
  mgr_active m = true → Obj.get (registry m) id = Some exp →
  exp_active exp = true →
  isInExperiment (with_testgroup tg m) id
  = ((tg >=? fst (testRange exp))%Z && (tg <=? snd (testRange exp))%Z).
Proof.
  intros Ha Hg He. unfold isInExperiment, with_testgroup. simpl.
  rewrite Ha, Hg, He. simpl. by destruct (testRange exp).
Qed.

(** C6.  [isInExperiment(id)] is true exactly when the manager is active,
    an experiment is registered under the id and active, and the bucket
    lies between the two ends of its test range, both included.  The
    answer is a function of these data alone, so it is the same at every
    call while they are unchanged, and calls of [apply] in between do not
    change it.  The range [0,24] admits the buckets 0 to 24 and no other
    of the hundred. *)
Theorem isInExperiment_bucketing m id :
  (isInExperiment m id = true ↔
     mgr_active m = true
     ∧ ∃ exp, Obj.get (registry m) id = Some exp ∧ exp_active exp = true
              ∧ (fst (testRange exp) <= testgroup m <= snd (testRange exp))%Z)
  ∧ (∀ m', mgr_active m' = mgr_active m → testgroup m' = testgroup m →
           exp_active <$> Obj.get (registry m') id
             = exp_active <$> Obj.get (registry m) id →
           testRange <$> Obj.get (registry m') id
             = testRange <$> Obj.get (registry m) id →
           isInExperiment m' id = isInExperiment m id)
  ∧ (∀ pn cfg, isInExperiment (apply pn cfg m).1 id = isInExperiment m id)
  ∧ (∀ exp, mgr_active m = true → Obj.get (registry m) id = Some exp →
            exp_active exp = true → testRange exp = (0, 24)%Z →
            List.filter (fun tg => isInExperiment (with_testgroup tg m) id)
                        (seqZ 0 100) = seqZ 0 25).
Proof.
  split; [apply isInExperiment_iff|].
  split; [intros m'; apply isInExperiment_stable|].
  split.
  - intros pn cfg.
    destruct (apply_frame pn cfg m) as (Ha & Htg & _ & _ & Hr).
    apply isInExperiment_stable; by rewrite ?Hr.
  - intros exp Ha Hg He Hr.
    rewrite (List.filter_ext _ (fun tg => (tg >=? 0)%Z && (tg <=? 24)%Z)).
    + by vm_compute.
    + intros tg. rewrite (isInExperiment_with_testgroup m id exp tg Ha Hg He).
      by rewrite Hr.
Qed.


(** C10.  When the [apply] function of a matched experiment throws, the
    exception is caught: the id is appended neither to the applied nor to
    the eligible list, and the loop goes on with every remaining entry of
    the registry. *)
Theorem apply_throw_is_caught pn cfg m l1 id exp l2 cfg' :
  mgr_active m = true →
  registry m = l1 ++ (id, exp) :: l2 →
  exp_active exp = true →
  isMatch pn exp = true →
  targetingMatches m exp = true →
  isInExperiment m id = true →
  let st1 := fold_left (apply_entry pn) l1 (m, cfg) in
  exp_apply exp st1.2 = ApplyThrew cfg' →
  let st2 := apply_entry pn st1 (id, exp) in
  st2 = (st1.1, cfg')
  ∧ applied st2.1 = applied st1.1
  ∧ eligible st2.1 = eligible st1.1
  ∧ apply pn cfg m = fold_left (apply_entry pn) l2 (st1.1, cfg').
Proof.
  intros Hact Hreg Hexp Hmatch Htgt Hr st1 Hthrow st2.
  destruct (apply_at_entry pn cfg m l1 id exp l2 Hact Hreg) as (Happ & Htm & Hin).
  fold st1 in Happ, Htm, Hin. fold st2 in Happ.
  assert (Hst2 : st2 = (st1.1, cfg')).
  { subst st2. destruct st1 as [m1 cfg1]. simpl in *.
    unfold apply_entry. rewrite Hexp, Hmatch, Htm, Htgt, Hin, Hr. simpl.
    by rewrite Hthrow. }
  rewrite Happ, Hst2. done.
Qed.

End ExperimentFacts.

Section ExperimentInstances.
Import Targeting Experiments.

Lemma isInExperiment_bucketing_witness :
  let m := Scenarios.mgr_of true 24 [("e1", Scenarios.exp_v2)] in
  isInExperiment m "e1" = true
  ∧ isInExperiment (apply (Some "a") "v1" m).1 "e1" = isInExperiment m "e1"
  ∧ List.filter (fun tg => isInExperiment (with_testgroup tg m) "e1") (seqZ 0 100)
    = seqZ 0 25.
Proof.
  intros m.
  pose proof (isInExperiment_bucketing (D:=string) m "e1") as (H1 & _ & H3 & H4).
  split.
  - apply H1. split; [reflexivity|]. exists Scenarios.exp_v2.
    split; [reflexivity|]. split; [reflexivity|]. simpl. lia.
  - split; [apply H3|].
    apply (H4 Scenarios.exp_v2); reflexivity.
Defined.




Lemma apply_throw_is_caught_witness :
  let m := Scenarios.mgr_of true 10
             [("e1", Scenarios.exp_throwing); ("e2", Scenarios.exp_global)] in
  let st2 := apply_entry (Some "a") (m, "v1") ("e1", Scenarios.exp_throwing) in
  st2 = (m, "v1") ∧ applied st2.1 = [] ∧ eligible st2.1 = []
  ∧ apply (Some "a") "v1" m
    = fold_left (apply_entry (Some "a")) [("e2", Scenarios.exp_global)] (m, "v1").
Proof.
  intros m.
  exact (apply_throw_is_caught (Some "a") "v1" m [] "e1" Scenarios.exp_throwing
           [("e2", Scenarios.exp_global)] "v1"
           eq_refl eq_refl eq_refl eq_refl eq_refl eq_refl eq_refl).
Defined.

End ExperimentInstances.

(** ** Properties of the loader *)

Section LoaderFacts.
Import Targeting Experiments Loader.
Implicit Types (st : loader) (p : plugin) (e : env).






(** *** What the operations leave alone *)

Lemma write_lookup loc p st :
  (loc < length (store st))%nat → store (write loc p st) !! loc = Some p.
Proof. intros Hlt. unfold write. simpl. by apply list_lookup_insert_eq. Qed.

(** With a url, [executeLoad] leaves the descriptor requested, the state
    in which the three callbacks pass their guard. *)
Lemma executeLoad_requested e loc promise st p :
  store st !! loc = Some p → truthy_str (url p) = true →
  status <$> store (executeLoad e loc promise st) !! loc = Some "requested".
Proof.
  intros Hp Hurl.
  assert (Hlt : (loc < length (store st))%nat) by by eapply lookup_lt_Some.
  unfold executeLoad. rewrite Hp. simpl. rewrite Hurl. simpl.
  by rewrite list_lookup_insert_eq.
Qed.

Lemma handleInactive_shape e loc promise st :
  shape (handleInactive e loc promise st) = shape st.
Proof.
  unfold handleInactive, shape. destruct (store st !! loc); [|done].
  simpl. by rewrite length_insert.
Qed.

Lemma handleIgnore_shape e loc reason promise st :
  shape (handleIgnore e loc reason promise st) = shape st.
Proof.
  unfold handleIgnore, shape. destruct (store st !! loc); [|done].
  simpl. by rewrite length_insert.
Qed.

Lemma executeLoad_shape e loc promise st :
  shape (executeLoad e loc promise st) = shape st.
Proof.
  unfold executeLoad. destruct (store st !! loc) as [p|]; [|done].
  simpl. destruct (truthy_str (url p)).
  - unfold shape. simpl. by rewrite length_insert.
  - rewrite handleIgnore_shape. unfold shape. simpl. by rewrite length_insert.
Qed.

Lemma getContext_from_shape e entries st :
  shape (getContext_from e entries st).2 = shape st.
Proof.
  revert st. induction entries as [|[key call] rest IH]; intros st; [done|].
  unfold getContext_from. fold getContext_from. destruct call.
  - specialize (IH st). by destruct (getContext_from e rest st).
  - specialize (IH (log e ("Dimension " +:+ dquote +:+ key +:+ dquote +:+ " threw error") st)).
    by destruct (getContext_from e rest _).
Qed.

Lemma apply_experiments_shape loc p st :
  shape (apply_experiments loc p st).2 = shape st.
Proof.
  unfold apply_experiments. destruct (experiments st) as [m|]; [|done].
  destruct (apply (Some (name p)) p m) as [m' p']. unfold shape. simpl.
  by rewrite length_insert.
Qed.

Lemma url_override_shape e p st :
  shape (url_override e p st).2 = shape st.
Proof.
  unfold url_override. by destruct (checkUrlOverride e (name p)) as [[] []].
Qed.

Lemma load_checks_shape e loc promise p st :
  shape (load_checks e loc promise p st) = shape st.
Proof.
  unfold load_checks.
  destruct (negb (active p)); [apply handleInactive_shape|].
  destruct (negb (checkConsent e (consentState p))); [done|].
  destruct (negb (matchesDomain (Some (domains p)) (host e)));
    [apply handleIgnore_shape|].
  pose proof (apply_experiments_shape loc p st) as H1.
  destruct (apply_experiments loc p st) as [p2 st2]. simpl in H1.
  pose proof (getContext_from_shape e (dimensions e) st2) as H2.
  unfold getContext. destruct (getContext_from e (dimensions e) st2) as [ctx st3].
  simpl in H2.
  destruct (negb (matched (plugin_targeting p2 ctx st3)));
    rewrite ?handleIgnore_shape, ?executeLoad_shape; congruence.
Qed.

(** [load] of a name that is present creates no descriptor and leaves the
    name on the stored one. *)
Lemma load_present_shape e config st loc p :
  plugins st !! c_name config = Some loc → store st !! loc = Some p →
  shape (load e config st) = (length (store st), <[name p := loc]> (plugins st)).
Proof.
  intros Hn Hp. unfold load, descriptor_of. simpl. rewrite Hn. simpl. rewrite Hp.
  pose proof (url_override_shape e p
    (set_plugins (<[name p:=loc]> (plugins (set_promises (S (promises st)) st)))
       (set_promises (S (promises st)) st))) as H1.
  destruct (url_override e p _) as [p1 st1]. simpl in H1.
  rewrite load_checks_shape. unfold shape in *. simpl in *.
  rewrite length_insert. done.
Qed.

Lemma handleIgnore_experiments e loc reason promise st :
  experiments (handleIgnore e loc reason promise st) = experiments st.
Proof. unfold handleIgnore. by destruct (store st !! loc). Qed.

Lemma executeLoad_experiments e loc promise st :
  experiments (executeLoad e loc promise st) = experiments st.
Proof.
  unfold executeLoad. destruct (store st !! loc) as [p|]; [|done].
  simpl. destruct (truthy_str (url p)); [done|].
  by rewrite handleIgnore_experiments.
Qed.

Lemma getContext_from_experiments e entries st :
  experiments (getContext_from e entries st).2 = experiments st.
Proof.
  revert st. induction entries as [|[key call] rest IH]; intros st; [done|].
  unfold getContext_from. fold getContext_from. destruct call.
  - specialize (IH st). by destruct (getContext_from e rest st).
  - specialize (IH (log e ("Dimension " +:+ dquote +:+ key +:+ dquote +:+ " threw error") st)).
    by destruct (getContext_from e rest _).
Qed.

Lemma process_entry_experiments e st entry :
  experiments (process_entry e st entry) = experiments st.
Proof.
  destruct entry as [loc promise]. unfold process_entry.
  destruct (store st !! loc) as [p|]; [|done].
  destruct (checkConsent e (consentState p)); [|done].
  pose proof (getContext_from_experiments e (dimensions e) st) as H.
  unfold getContext. destruct (getContext_from e (dimensions e) st) as [ctx st1].
  simpl in H.
  destruct (matched (plugin_targeting p ctx st1)
            && matchesDomain (Some (domains p)) (host e));
    by rewrite ?executeLoad_experiments, ?handleIgnore_experiments.
Qed.

(** [processConsentQueue] never reaches the experiment manager: whatever
    the queue holds, the manager, with its applied and eligible lists, is
    the one it was. *)
Lemma processConsentQueue_experiments e st :
  experiments (processConsentQueue e st) = experiments st.
Proof.
  unfold processConsentQueue.
  change (experiments st) with (experiments (set_consentQueue [] st)).
  generalize (set_consentQueue [] st). generalize (consentQueue st).
  intros queue. induction queue as [|entry queue IH]; intros st'; [done|].
  simpl. by rewrite IH, process_entry_experiments.
Qed.

(** An entry whose consent is still refused goes back to the queue. *)
Lemma process_entry_denied e st loc promise p :
  store st !! loc = Some p → checkConsent e (consentState p) = false →
  process_entry e st (loc, promise)
  = set_consentQueue (consentQueue st ++ [(loc, promise)]) st.
Proof. intros Hp Hc. unfold process_entry. by rewrite Hp, Hc. Qed.




(** C8 (as amended).  [load] of a name that is present works on the stored
    descriptor: it creates none, the name stays on the same descriptor,
    and nothing else of the submitted configuration is read.  [register]
    does not reuse: it always stores a freshly normalized descriptor under
    the name, in place of the one that was there, which stays as it was
    for those that still hold it. *)
Theorem load_reuses_register_replaces e config st loc p :
  plugins st !! c_name config = Some loc →
  store st !! loc = Some p →
  (length (store (load e config st)) = length (store st)
   ∧ plugins (load e config st) !! c_name config = Some loc
   ∧ (∀ config', c_name config' = c_name config →
        load e config' st = load e config st))
  ∧ (let next := length (store st) in
     let st' := (register e config st).2 in
     (register e config st).1 = next
     ∧ next ≠ loc
     ∧ plugins st' !! c_name config = Some next
     ∧ store st' !! next
       = Some (normalizePluginConfig (eventPrefix st) (clock e (ticks st)) config)
     ∧ store st' !! loc = Some p).
Proof.
  intros Hn Hp.
  assert (Hlt : (loc < length (store st))%nat) by by eapply lookup_lt_Some.
  split; [split; [|split]|].
  - pose proof (load_present_shape e config st loc p Hn Hp) as H.
    unfold shape in H. by injection H.
  - pose proof (load_present_shape e config st loc p Hn Hp) as H.
    unfold shape in H. injection H as _ ->.
    destruct (decide (name p = c_name config)) as [->|Hne].
    + apply lookup_insert_eq.
    + by rewrite lookup_insert_ne.
  - intros config' Hc. unfold load, descriptor_of. simpl.
    by rewrite Hc, Hn.
  - intros next st'. subst next st'. unfold register. simpl.
    split; [done|]. split; [lia|].
    split; [apply lookup_insert_eq|]. split.
    + rewrite lookup_app_r by done. by rewrite Nat.sub_diag.
    + by rewrite lookup_app_l.
Qed.


End LoaderFacts.

Section LoaderInstances.
Import Targeting Experiments Loader Scenarios.


(** C2, at a failing input.  Plugin "a" needs the "analytics" consent and
    experiment "e1", that every bucket is in, points it to the url v2.
    Loaded while consent is refused, the plugin is queued; resumed by
    [processConsentQueue] once consent is given, it reaches [executeLoad]
    with the url v1 and the manager records nothing, whereas [load] under
    the same consent applies the experiment, records it and attaches v2.
    On the resumed path a domain mismatch is moreover reported with the
    reason of the targeting engine.  An entry whose consent is still
    refused goes back to the queue unchanged. *)
Theorem consent_queue_skips_experiments :
  let denied := page false None None "sport" in
  let granted := page true None None "sport" in
  let queued := load denied cfg_a fresh_with_experiments in
  let resumed := processConsentQueue granted queued in
  let direct := load granted cfg_a fresh_with_experiments in
  let elsewhere :=
    config_of "a" (Some "https://x/v1.js") None (Some ["analytics"])
              (Some ["other.org"]) None in
  consentQueue queued = [(0, 0)%nat]
  ∧ processConsentQueue denied queued = queued
  ∧ consentQueue resumed = []
  ∧ effects resumed
    = [Publish "plugin.a.consent.pending" "a" "consent.pending" None;
       SetTimeout 0 0 0 3000; CallHook 0 PreloadFn;
       AppendScript 1 0 0 "https://x/v1.js" "body"]
  ∧ applied <$> experiments resumed = Some []
  ∧ eligible <$> experiments resumed = Some []
  ∧ effects direct
    = [SetTimeout 0 0 0 3000; CallHook 0 PreloadFn;
       AppendScript 1 0 0 "https://x/v2.js" "body"]
  ∧ applied <$> experiments direct = Some ["e1"]
  ∧ (res_reason <$> (last (effects (processConsentQueue granted
                                      (load denied elsewhere fresh)))
                     ≫= fun x => match x with Resolve _ r => Some r | _ => None end))
    = Some (Some "All targeting rules passed")
  ∧ (res_reason <$> (last (effects (load granted elsewhere fresh))
                     ≫= fun x => match x with Resolve _ r => Some r | _ => None end))
    = Some (Some "Domain mismatch").
Proof. repeat split; by vm_compute. Qed.


Lemma load_reuses_register_replaces_witness :
  let pg := page true None None "sport" in
  let st := load pg (config_of "a" (Some "u") None None None None) fresh in
  length (store (load pg cfg_no_url st)) = 1%nat
  ∧ plugins (load pg cfg_no_url st) !! "a" = Some 0%nat
  ∧ (register pg cfg_no_url st).1 = 1%nat
  ∧ plugins (register pg cfg_no_url st).2 !! "a" = Some 1%nat.
Proof.
  intros pg st.
  assert (Hp : ∃ p, store st !! 0%nat = Some p)
    by (eexists; vm_compute; reflexivity).
  destruct Hp as (p & Hp).
  assert (Hn : plugins st !! c_name cfg_no_url = Some 0%nat) by by vm_compute.
  destruct (load_reuses_register_replaces pg cfg_no_url st 0 p Hn Hp)
    as ((H1 & H2 & _) & (H3 & _ & H4 & _)).
  split; [exact H1|]. split; [exact H2|]. split; [exact H3|exact H4].
Defined.

(** C8, as stated, fails for [register]: after a load of "a" has been
    requested, registering "a" again stores a second descriptor under the
    name, with status init, while the callbacks of the pending load keep
    the first one, and resolve with it. *)
Lemma register_duplicates_counterexample :
  let pg := page true None None "sport" in
  let st1 := load pg (config_of "a" (Some "u") None None None None) fresh in
  let st2 := (register pg (config_of "a" (Some "u") None None None None) st1).2 in
  let st3 := onload_callback pg 0 0 st2 in
  status <$> getPlugin "a" st1 = Some "requested"
  ∧ plugins st1 !! "a" = Some 0%nat
  ∧ plugins st2 !! "a" = Some 1%nat
  ∧ status <$> getPlugin "a" st2 = Some "init"
  ∧ p_requested ∘ performance <$> getPlugin "a" st2 = Some 0%Z
  ∧ name <$> store st2 = ["a"; "a"]
  ∧ status <$> store st3 = ["loaded"; "init"]
  ∧ status <$> getPlugin "a" st3 = Some "init".
Proof. repeat split; by vm_compute. Qed.



(** A load on a page that lets it through, and the same load without a
    url. *)
Example load_example :
  let pg := page true None None "sport" in
  effects (load pg (config_of "a" (Some "u") None None None None) fresh)
  = [SetTimeout 0 0 0 3000; CallHook 0 PreloadFn; AppendScript 1 0 0 "u" "body"]
  ∧ status <$> getPlugin "a" (load pg cfg_no_url fresh) = Some "ignore"
  ∧ metrics (load pg cfg_no_url fresh) !! "a"
    = Some (Perf "ignore" 0 0 0 10 (-1) (-1) 20).
Proof. repeat split; by vm_compute. Qed.

End LoaderInstances.

(** ** Further properties of the targeting engine *)

Section MoreTargetingFacts.
Import Targeting.

Lemma lower_ascii_idem c : lower_ascii (lower_ascii c) = lower_ascii c.
Proof. destruct c as [[] [] [] [] [] [] [] []]; reflexivity. Qed.

Lemma toLowerCase_idem s : toLowerCase (toLowerCase s) = toLowerCase s.
Proof. induction s as [|c s IH]; simpl; [done|]. by rewrite lower_ascii_idem, IH. Qed.

Lemma prefix_refl s : String.prefix s s = true.
Proof.
  induction s as [|c s IH]; simpl; [done|].
  destruct (Ascii.ascii_dec c c); [done|congruence].
Qed.

Lemma str_includes_prefix s p : String.prefix p s = true → str_includes s p = true.
Proof. intros H. destruct s; cbn [str_includes]; by rewrite H. Qed.

Lemma existsb_impl {A} (f g : A → bool) (l : list A) :
  (∀ x, f x = true → g x = true) → existsb f l = true → existsb g l = true.
Proof.
  intros Hfg. rewrite !existsb_exists. intros (x & Hin & Hf). exists x. auto.
Qed.

Lemma not_all_no_wildcard (rules : list jsval) :
  VStr "all" ∉ rules →
  bool_decide (arr_indexOf rules (VStr "all") = Some O)
  || arr_includes rules (VStr "all") = false.
Proof.
  intros Hnot. apply orb_false_iff. split.
  - apply bool_decide_eq_false. destruct rules as [|r rules]; [done|]. simpl.
    destruct (decide (r = VStr "all")) as [->|Hne].
    + exfalso. apply Hnot, list_elem_of_here.
    + by destruct (arr_indexOf rules (VStr "all")).
  - destruct (arr_includes rules (VStr "all")) eqn:E; [|done].
    by apply arr_includes_true in E.
Qed.

(** What [matchesRule] computes on a list without wildcard. *)
Lemma matchesRule_hit (value : jsval) (rules : list jsval) (mt : string) :
  rules ≠ [] → VStr "all" ∉ rules →
  matchesRule value (Some rules) mt
  = existsb (fun rule => rule_hit mt (toLowerCase (js_String value))
                                  (toLowerCase (js_String rule))) rules.
Proof.
  intros Hne Hnot. unfold matchesRule, rule_hit.
  destruct rules as [|r rules]; [done|].
  rewrite (not_all_no_wildcard _ Hnot).
  destruct (String.eqb mt "startsWith"); [done|].
  by destruct (String.eqb mt "includes").
Qed.

Lemma matchesRule_wild_or_hit (value : jsval) (rules : list jsval) (mt : string) :
  matchesRule value (Some rules) mt
  = match rules with
    | [] => true
    | _ => bool_decide (arr_indexOf rules (VStr "all") = Some O)
           || arr_includes rules (VStr "all")
           || existsb (fun rule => rule_hit mt (toLowerCase (js_String value))
                                            (toLowerCase (js_String rule))) rules
    end.
Proof.
  unfold matchesRule, rule_hit. destruct rules as [|r rules]; [done|].
  destruct (bool_decide _ || arr_includes _ _); [done|]. simpl.
  destruct (String.eqb mt "startsWith"); [done|].
  by destruct (String.eqb mt "includes").
Qed.

Lemma rule_hit_nest v r :
  (rule_hit "exact" v r = true → rule_hit "startsWith" v r = true)
  ∧ (rule_hit "startsWith" v r = true → rule_hit "includes" v r = true).
Proof.
  unfold rule_hit. simpl. split.
  - intros H. apply String.eqb_eq in H. subst r. apply prefix_refl.
  - apply str_includes_prefix.
Qed.

(** X1.  The three match types nest: a value that a rule list matches
    exactly is matched by it under startsWith, and a value matched under
    startsWith is matched under includes; the same holds for
    [isExcluded]. *)
Theorem match_types_nest (value : jsval) (rules : option (list jsval)) :
  (matchesRule value rules "exact" = true →
   matchesRule value rules "startsWith" = true)
  ∧ (matchesRule value rules "startsWith" = true →
     matchesRule value rules "includes" = true)
  ∧ (isExcluded value rules "exact" = true →
     isExcluded value rules "startsWith" = true)
  ∧ (isExcluded value rules "startsWith" = true →
     isExcluded value rules "includes" = true).
Proof.
  destruct rules as [rules|]; [|done].
  rewrite !matchesRule_wild_or_hit, !isExcluded_hit.
  assert (He : ∀ a b, (existsb (fun rule => rule_hit a (toLowerCase (js_String value))
                                  (toLowerCase (js_String rule))) rules = true →
             existsb (fun rule => rule_hit b (toLowerCase (js_String value))
                                  (toLowerCase (js_String rule))) rules = true) →
           match rules with
           | [] => true
           | _ => bool_decide (arr_indexOf rules (VStr "all") = Some O)
                  || arr_includes rules (VStr "all")
                  || existsb (fun rule => rule_hit a (toLowerCase (js_String value))
                                  (toLowerCase (js_String rule))) rules
           end = true →
           match rules with
           | [] => true
           | _ => bool_decide (arr_indexOf rules (VStr "all") = Some O)
                  || arr_includes rules (VStr "all")
                  || existsb (fun rule => rule_hit b (toLowerCase (js_String value))
                                  (toLowerCase (js_String rule))) rules
           end = true).
  { intros a b Hab. destruct rules as [|r rs]; [done|].
    rewrite !orb_true_iff. intros [H|H]; [by left|right; by apply Hab]. }
  repeat split.
  - apply He, existsb_impl. intros x. apply rule_hit_nest.
  - apply He, existsb_impl. intros x. apply rule_hit_nest.
  - apply existsb_impl. intros x. apply rule_hit_nest.
  - apply existsb_impl. intros x. apply rule_hit_nest.
Qed.

Lemma match_types_nest_witness :
  matchesRule (VStr "Sport") (Some [VStr "news"; VStr "SPORT"]) "startsWith" = true
  ∧ isExcluded (VStr "Sport") (Some [VStr "news"; VStr "SPORT"]) "includes" = true.
Proof.
  destruct (match_types_nest (VStr "Sport") (Some [VStr "news"; VStr "SPORT"]))
    as (H1 & _ & H3 & H4).
  split; [apply H1; reflexivity|apply H4, H3; reflexivity].
Defined.

(** X2.  Matching does not see the case of the value: a string and its
    lower-cased form are matched, and excluded, by the same rule lists
    under every match type.  For [isExcluded] the case of the rules does
    not count either. *)
Theorem matching_ignores_case (s : string) (v : jsval)
    (rules : option (list jsval)) (rs : list string) (mt : string) :
  matchesRule (VStr (toLowerCase s)) rules mt = matchesRule (VStr s) rules mt
  ∧ isExcluded (VStr (toLowerCase s)) rules mt = isExcluded (VStr s) rules mt
  ∧ isExcluded v (Some (VStr <$> (toLowerCase <$> rs))) mt
    = isExcluded v (Some (VStr <$> rs)) mt.
Proof.
  split; [|split].
  - destruct rules as [rules|]; [|done].
    rewrite !matchesRule_wild_or_hit. simpl. by rewrite toLowerCase_idem.
  - destruct rules as [rules|]; [|done].
    rewrite !isExcluded_hit. simpl. by rewrite toLowerCase_idem.
  - rewrite !isExcluded_hit. induction rs as [|r rs IH]; [done|].
    rewrite !fmap_cons. cbn [existsb js_String].
    by rewrite toLowerCase_idem, IH.
Qed.

(** X3.  On a non-empty rule list without the wildcard "all",
    [matchesRule] and [isExcluded] give the same answer, and in every case
    a value that a list excludes is a value that the list matches.  So
    the two functions differ on the empty or absent list and on the
    wildcard, which is compared as written: "ALL" is an ordinary rule. *)
Theorem matchesRule_isExcluded_agree (value : jsval) (rules : list jsval)
    (mt : string) :
  (rules ≠ [] → VStr "all" ∉ rules →
   matchesRule value (Some rules) mt = isExcluded value (Some rules) mt)
  ∧ (isExcluded value (Some rules) mt = true →
     matchesRule value (Some rules) mt = true).
Proof.
  split.
  - intros Hne Hnot. by rewrite matchesRule_hit, isExcluded_hit.
  - rewrite matchesRule_wild_or_hit, isExcluded_hit.
    destruct rules as [|r rs]; [done|]. intros ->. apply orb_true_r.
Qed.

Lemma matchesRule_isExcluded_agree_witness :
  matchesRule (VStr "all-news") (Some [VStr "ALL"]) "startsWith"
  = isExcluded (VStr "all-news") (Some [VStr "ALL"]) "startsWith"
  ∧ matchesRule (VStr "sport") (Some [VStr "ALL"]) "exact" = false.
Proof.
  assert (Hnot : VStr "all" ∉ [VStr "ALL"]).
  { intros H. apply list_elem_of_singleton in H. discriminate H. }
  pose proof (proj1 (matchesRule_isExcluded_agree (VStr "all-news") [VStr "ALL"]
                       "startsWith") ltac:(discriminate) Hnot) as H1.
  pose proof (proj1 (matchesRule_isExcluded_agree (VStr "sport") [VStr "ALL"]
                       "exact") ltac:(discriminate) Hnot) as H2.
  split; [exact H1|]. rewrite H2. reflexivity.
Defined.







(** X6.  Only the dimensions of the context are looked at: two pairs of
    rule objects whose special predicates answer alike and whose rule
    lists agree on the keys of the context get the same verdict, reason
    included.  A rule on a dimension that the context does not hold never
    blocks. *)
Theorem rules_outside_context_ignored (include include' exclude exclude' : rules_obj)
    (context : list (string * jsval)) (cfg : gmap string dim_config) :
  special_says_true include = special_says_true include' →
  special_says_true exclude = special_says_true exclude' →
  (∀ d, d ∈ context.*1 →
        rule_list include d = rule_list include' d
        ∧ rule_list exclude d = rule_list exclude' d) →
  evaluateTargeting include exclude context cfg
  = evaluateTargeting include' exclude' context cfg.
Proof.
  intros Hi He Hagree. unfold evaluateTargeting. rewrite Hi, He.
  assert (H : eval_dimensions include exclude context cfg
              = eval_dimensions include' exclude' context cfg).
  { induction context as [|[d v] rest IH]; [done|].
    cbn [eval_dimensions]. unfold has_rules.
    destruct (Hagree d) as [-> ->]; [rewrite fmap_cons; apply list_elem_of_here|].
    rewrite IH; [done|]. intros d' Hd'. apply Hagree.
    rewrite fmap_cons. by apply list_elem_of_further. }
  by rewrite H.
Qed.

Lemma rules_outside_context_ignored_witness :
  evaluateTargeting (RulesObj None {["section" := [VStr "sport"]]})
                    (RulesObj None {["geo" := [VStr "us"]]})
                    [("pagetype", VStr "article")] ∅
  = evaluateTargeting empty_rules empty_rules [("pagetype", VStr "article")] ∅.
Proof.
  apply rules_outside_context_ignored; [reflexivity|reflexivity|].
  intros d Hd. apply list_elem_of_singleton in Hd. subst d.
  split; reflexivity.
Defined.

(** X7.  [normalizeTargetingConfig] is transparent to the evaluation: the
    normalized rule objects get the verdict of the raw ones, the rule
    lists are untouched, and normalizing twice is normalizing once. *)
Theorem normalize_is_transparent (include exclude : rules_obj)
    (context : list (string * jsval)) (cfg : gmap string dim_config) :
  evaluateTargeting (normalizeTargetingConfig include exclude).1
                    (normalizeTargetingConfig include exclude).2 context cfg
  = evaluateTargeting include exclude context cfg
  ∧ dims (normalize_rules include) = dims include
  ∧ normalize_rules (normalize_rules include) = normalize_rules include.
Proof.
  split; [|done]. simpl.
  unfold evaluateTargeting.
  assert (Hs : ∀ o, special_says_true (normalize_rules o) = special_says_true o).
  { intros o. unfold special_says_true, normalize_rules. simpl.
    by destruct (special o). }
  rewrite !Hs.
  by rewrite (eval_dimensions_dims (normalize_rules include) include
                (normalize_rules exclude) exclude).
Qed.

(** X8.  The domain check is stricter than a dimension rule with the same
    list: a host that [matchesDomain] lets through is a value that
    [matchesRule] matches exactly against the list, while the converse
    fails, the domain check comparing hosts as they are written. *)
Theorem domain_match_is_stricter (domains : list string) (host : string) :
  matchesDomain (Some domains) host = true →
  matchesRule (VStr host) (Some (VStr <$> domains)) "exact" = true.
Proof.
  intros H. rewrite matchesRule_wild_or_hit.
  destruct domains as [|d l]; [done|]. rewrite fmap_cons. rewrite <- fmap_cons.
  unfold matchesDomain in H.
  destruct (arr_includes (d :: l) "all") eqn:E.
  - apply arr_includes_true in E.
    assert (E' : arr_includes (VStr <$> d :: l) (VStr "all") = true).
    { apply arr_includes_true. by apply list_elem_of_fmap_2. }
    rewrite E'. by rewrite orb_true_r.
  - apply arr_includes_true in H.
    assert (E' : existsb (fun rule => rule_hit "exact" (toLowerCase (js_String (VStr host)))
                            (toLowerCase (js_String rule))) (VStr <$> d :: l) = true).
    { apply existsb_exists. exists (VStr host). split.
      - apply list_elem_of_In. by apply list_elem_of_fmap_2.
      - unfold rule_hit. simpl. apply String.eqb_refl. }
    rewrite E'. apply orb_true_r.
Qed.

Lemma domain_match_is_stricter_witness :
  matchesRule (VStr "example.com") (Some (VStr <$> ["shop.org"; "example.com"]))
              "exact" = true
  ∧ matchesRule (VStr "Example.com") (Some (VStr <$> ["example.com"])) "exact" = true
  ∧ matchesDomain (Some ["example.com"]) "Example.com" = false.
Proof.
  split; [|split; reflexivity].
  apply (domain_match_is_stricter ["shop.org"; "example.com"] "example.com").
  reflexivity.
Defined.

End MoreTargetingFacts.


(** ** Further properties of the experiment manager *)

Section MoreExperimentFacts.
Import Targeting Experiments.
Context {D : Type}.
Implicit Types (m : manager D) (exp : experiment D) (cfg : D)
  (r : raw_experiment D).

Lemma obj_get_replace {V} (o : list (string * V)) (k k' : string) (v : V) :
  Obj.get (Obj.replace o k v) k'
  = if String.eqb k k' then (fun _ => v) <$> Obj.get o k else Obj.get o k'.
Proof.
  induction o as [|[k0 v0] o IH]; cbn [Obj.replace Obj.get].
  - by destruct (String.eqb k k').
  - destruct (String.eqb k0 k) eqn:E0; cbn [Obj.get].
    + apply String.eqb_eq in E0. subst k0.
      by destruct (String.eqb k k').
    + rewrite IH. destruct (String.eqb k k') eqn:E; [|done].
      apply String.eqb_eq in E. subst k'. by rewrite E0.
Qed.

Lemma obj_get_insert_index {V} (o : list (string * V)) n (k k' : string) (v : V) :
  Obj.get o k = None →
  Obj.get (Obj.insert_index o n k v) k'
  = if String.eqb k k' then Some v else Obj.get o k'.
Proof.
  induction o as [|[k0 v0] o IH]; cbn [Obj.insert_index Obj.get]; [done|].
  destruct (String.eqb k0 k) eqn:E0; [done|]. intros Hk.
  destruct (Obj.array_index k0) as [n0|]; [destruct (n0 <? n)%N|]; cbn [Obj.get];
    rewrite ?IH by done; [|done..].
  destruct (String.eqb k k') eqn:E; [|done].
  apply String.eqb_eq in E. subst k'. by rewrite E0.
Qed.

Lemma obj_get_snoc {V} (o : list (string * V)) (k k' : string) (v : V) :
  Obj.get o k = None →
  Obj.get (o ++ [(k, v)]) k' = if String.eqb k k' then Some v else Obj.get o k'.
Proof.
  induction o as [|[k0 v0] o IH]; cbn [app Obj.get]; [done|].
  destruct (String.eqb k0 k) eqn:E0; [done|]. intros Hk. rewrite IH by done.
  destruct (String.eqb k k') eqn:E; [|done].
  apply String.eqb_eq in E. subst k'. by rewrite E0.
Qed.

(** Assignment and lookup on an object. *)
Lemma obj_get_set {V} (o : list (string * V)) (k k' : string) (v : V) :
  Obj.get (Obj.set o k v) k' = if String.eqb k k' then Some v else Obj.get o k'.
Proof.
  unfold Obj.set. destruct (Obj.get o k) as [v0|] eqn:Hg.
  - rewrite obj_get_replace, Hg. done.
  - destruct (Obj.array_index k).
    + by apply obj_get_insert_index.
    + by apply obj_get_snoc.
Qed.

Lemma obj_get_delete_ne {V} (o : list (string * V)) (k k' : string) :
  k' ≠ k → Obj.get (Obj.delete o k) k' = Obj.get o k'.
Proof.
  intros Hne. induction o as [|[k0 v0] o IH]; cbn [Obj.delete Obj.get]; [done|].
  destruct (String.eqb k0 k) eqn:E0; cbn [Obj.get].
  - apply String.eqb_eq in E0. subst k0.
    destruct (String.eqb k k') eqn:E; [|done].
    apply String.eqb_eq in E. congruence.
  - by rewrite IH.
Qed.

Lemma obj_get_delete_eq {V} (o : list (string * V)) (k : string) :
  NoDup o.*1 → Obj.get (Obj.delete o k) k = None.
Proof.
  induction o as [|[k0 v0] o IH]; cbn [Obj.delete Obj.get]; [done|].
  rewrite fmap_cons. intros Hnd. apply NoDup_cons in Hnd as [Hk0 Hnd].
  destruct (String.eqb k0 k) eqn:E0; cbn [Obj.get].
  - apply String.eqb_eq in E0. subst k0. by apply obj_get_None.
  - rewrite E0. by apply IH.
Qed.

Lemma register_truthy r m id :
  r_id r = Some id → id ≠ "" →
  register r m = (set_registry (Obj.set (registry m) id (entry_of r id)) m, true).
Proof.
  intros Hid Hne. unfold register. rewrite Hid. simpl.
  destruct (String.eqb id "") eqn:E; [by apply String.eqb_eq in E|]. done.
Qed.

(** X9.  [register] with an id stores the experiment under it, with the
    defaults for the fields that are not given, and answers true: a lookup
    of the id finds the new entry, whatever was there before, the other
    ids keep their entries, the keys stay distinct and the applied and
    eligible lists are untouched.  Without an id (absent or empty)
    [register] answers false and changes nothing. *)
Theorem register_then_lookup r m :
  (∀ id, r_id r = Some id → id ≠ "" →
     (register r m).2 = true
     ∧ Obj.get (registry (register r m).1) id = Some (entry_of r id)
     ∧ (∀ id', id' ≠ id →
          Obj.get (registry (register r m).1) id' = Obj.get (registry m) id')
     ∧ (NoDup (registry m).*1 → NoDup (registry (register r m).1).*1)
     ∧ applied (register r m).1 = applied m
     ∧ eligible (register r m).1 = eligible m)
  ∧ (truthy_str (r_id r) = false → register r m = (m, false)).
Proof.
  split.
  - intros id Hid Hne. rewrite (register_truthy r m id Hid Hne). simpl.
    split; [done|]. split; [by rewrite obj_get_set, String.eqb_refl|].
    split.
    + intros id' Hne'. rewrite obj_get_set.
      destruct (String.eqb id id') eqn:E; [|done].
      apply String.eqb_eq in E. congruence.
    + split; [apply obj_set_NoDup|done].
  - intros Hf. unfold register. by rewrite Hf.
Qed.

(** X10.  Registration and bucketing compose: right after [register], the
    experiment admits the bucket of the manager exactly when the manager
    is active, the experiment was not registered with [active: false], and
    the bucket lies in the given range, or in 0..99 when none was given. *)
Theorem registered_experiment_buckets r m id :
  r_id r = Some id → id ≠ "" →
  isInExperiment (register r m).1 id
  = mgr_active m && default true (r_active r)
    && ((testgroup m >=? (default (0, 99) (r_testRange r)).1)%Z
        && (testgroup m <=? (default (0, 99) (r_testRange r)).2)%Z).
Proof.
  intros Hid Hne. rewrite (register_truthy r m id Hid Hne).
  unfold isInExperiment. simpl. rewrite obj_get_set, String.eqb_refl. simpl.
  destruct (mgr_active m); [|done]. simpl.
  destruct (default true (r_active r)); [|done]. simpl.
  by destruct (default (0, 99)%Z (r_testRange r)).
Qed.

(** X11.  [unregister] removes the experiment: in a registry with
    distinct keys the id is no longer found, [isInExperiment] answers
    false for it, the other ids keep their entries and the keys stay
    distinct. *)
Theorem unregister_removes id m :
  NoDup (registry m).*1 →
  Obj.get (registry (unregister id m)) id = None
  ∧ isInExperiment (unregister id m) id = false
  ∧ (∀ id', id' ≠ id →
       Obj.get (registry (unregister id m)) id' = Obj.get (registry m) id')
  ∧ NoDup (registry (unregister id m)).*1.
Proof.
  intros Hnd. unfold unregister, isInExperiment. simpl.
  rewrite obj_get_delete_eq by done.
  split; [done|]. split; [by destruct (mgr_active m)|].
  split; [intros id' Hne; by apply obj_get_delete_ne|by apply obj_delete_NoDup].
Qed.

(** One turn of the loop of [apply] appends at most one id, to one list. *)
Lemma apply_entry_appends pn m cfg id exp :
  let m' := (apply_entry pn (m, cfg) (id, exp)).1 in
  ∃ la le, applied m' = applied m ++ la ∧ eligible m' = eligible m ++ le
           ∧ la ++ le ⊆+ [id].
Proof.
  unfold apply_entry.
  destruct (exp_active exp && isMatch pn exp);
    [|exists [], []; rewrite !app_nil_r; repeat split; apply submseteq_nil_l].
  destruct (targetingMatches m exp);
    [|exists [], []; rewrite !app_nil_r; repeat split; apply submseteq_nil_l].
  destruct (isInExperiment m id).
  - destruct (exp_apply exp cfg); simpl.
    + exists [id], []. by rewrite app_nil_r.
    + exists [], []. rewrite !app_nil_r. repeat split. apply submseteq_nil_l.
  - simpl. exists [], [id]. by rewrite app_nil_r.
Qed.

Lemma apply_loop_appends pn l m cfg :
  let m' := (fold_left (apply_entry pn) l (m, cfg)).1 in
  ∃ la le, applied m' = applied m ++ la ∧ eligible m' = eligible m ++ le
           ∧ la ++ le ⊆+ l.*1.
Proof.
  revert m cfg. induction l as [|[id exp] l IH]; intros m cfg.
  - exists [], []. by rewrite !app_nil_r.
  - cbn [fold_left].
    destruct (apply_entry_appends pn m cfg id exp) as (a1 & e1 & Ha & He & Hs).
    destruct (apply_entry pn (m, cfg) (id, exp)) as [m1 cfg1]. simpl in Ha, He.
    destruct (IH m1 cfg1) as (la & le & Hla & Hle & Hsub).
    exists (a1 ++ la), (e1 ++ le). rewrite Hla, Hle, Ha, He, !app_assoc.
    split; [done|]. split; [done|].
    rewrite fmap_cons. cbn [fst]. change (id :: l.*1) with ([id] ++ l.*1).
    assert (Hp : ((a1 ++ la) ++ e1) ++ le ≡ₚ (a1 ++ e1) ++ (la ++ le)).
    { rewrite <- !app_assoc. f_equiv. rewrite !app_assoc. f_equiv.
      apply Permutation_app_comm. }
    rewrite Hp. by apply submseteq_app.
Qed.

(** X12.  A call of [apply] only appends to the lists of the manager, and
    it records each experiment at most once: the ids it adds to the
    applied and to the eligible list are keys of the registry, and in a
    registry with distinct keys no id is added twice or to both lists. *)
Theorem apply_records_each_once pn cfg m :
  NoDup (registry m).*1 →
  ∃ la le, applied (apply pn cfg m).1 = applied m ++ la
           ∧ eligible (apply pn cfg m).1 = eligible m ++ le
           ∧ la ++ le ⊆+ (registry m).*1
           ∧ NoDup (la ++ le).
Proof.
  intros Hnd. unfold apply. destruct (negb (mgr_active m)).
  - exists [], []. rewrite !app_nil_r. simpl.
    split; [done|]. split; [done|]. split; [apply submseteq_nil_l|apply NoDup_nil_2].
  - destruct (apply_loop_appends pn (registry m) m cfg) as (la & le & Ha & He & Hs).
    exists la, le. split; [done|]. split; [done|]. split; [done|].
    apply submseteq_Permutation in Hs as [k Hk]. rewrite Hk in Hnd.
    by apply NoDup_app in Hnd as [? _].
Qed.

(** X13.  A call of [apply] for a plugin leaves alone the experiments of
    the other plugins and the global ones: when no active experiment of
    the registry names the plugin, the manager and the descriptor come
    back as they were. *)
Theorem apply_skips_other_plugins (n : string) cfg m :
  n ≠ "" →
  (∀ id exp, (id, exp) ∈ registry m → exp_active exp = true →
             exp_plugin exp ≠ Some n) →
  apply (Some n) cfg m = (m, cfg).
Proof.
  intros Hn Hother. unfold apply. destruct (negb (mgr_active m)); [done|].
  assert (H : ∀ l, (∀ id exp, (id, exp) ∈ l → exp_active exp = true →
                              exp_plugin exp ≠ Some n) →
                   fold_left (apply_entry (Some n)) l (m, cfg) = (m, cfg)).
  { induction l as [|[id exp] l IH]; intros Hl; [done|].
    cbn [fold_left]. unfold apply_entry at 2.
    assert (E : exp_active exp && isMatch (Some n) exp = false).
    { destruct (exp_active exp) eqn:Ea; [|done]. simpl.
      destruct (isMatch (Some n) exp) eqn:Em; [|done].
      apply isMatch_named in Em; [|done].
      exfalso. by apply (Hl id exp (list_elem_of_here _ _) Ea). }
    rewrite E. apply IH. intros id' exp' Hin. apply (Hl id' exp').
    by apply list_elem_of_further. }
  by apply H.
Qed.


End MoreExperimentFacts.

Section MoreExperimentInstances.
Import Targeting Experiments.

Lemma register_then_lookup_witness :
  let r : raw_experiment string :=
    RawExperiment (Some "e2") None None (Some "a") None None None in
  let m := Scenarios.mgr_of true 10 [("e1", Scenarios.exp_v2)] in
  (register r m).2 = true
  ∧ (testRange <$> Obj.get (registry (register r m).1) "e2") = Some (0, 99)%Z
  ∧ Obj.get (registry (register r m).1) "e1" = Some Scenarios.exp_v2
  ∧ register (RawExperiment (Some "") None None None None None None) m = (m, false).
Proof.
  intros r m.
  destruct (register_then_lookup r m) as [H1 _].
  destruct (H1 "e2" eq_refl ltac:(discriminate)) as (Ha & Hb & Hc & _).
  split; [exact Ha|]. split; [by rewrite Hb|].
  split; [rewrite Hc; [reflexivity|discriminate]|].
  apply (register_then_lookup (RawExperiment (Some "") None None None None None None) m).
  reflexivity.
Defined.

Lemma registered_experiment_buckets_witness :
  let r : raw_experiment string :=
    RawExperiment (Some "e2") None None None None None None in
  isInExperiment (register r (Scenarios.mgr_of true 99 [])).1 "e2" = true
  ∧ isInExperiment (register r (Scenarios.mgr_of true 100 [])).1 "e2" = false.
Proof.
  intros r. split.
  - rewrite (registered_experiment_buckets r _ "e2" eq_refl); [reflexivity|discriminate].
  - rewrite (registered_experiment_buckets r _ "e2" eq_refl); [reflexivity|discriminate].
Defined.

Lemma unregister_removes_witness :
  let m := Scenarios.mgr_of true 10
             [("e1", Scenarios.exp_v2); ("e2", Scenarios.exp_global)] in
  isInExperiment m "e1" = true
  ∧ isInExperiment (unregister "e1" m) "e1" = false
  ∧ Obj.get (registry (unregister "e1" m)) "e2" = Some Scenarios.exp_global.
Proof.
  intros m. split; [reflexivity|].
  assert (Hnd : NoDup (registry m).*1).
  { apply NoDup_cons. split; [by apply not_elem_of_cons; split; [|apply not_elem_of_nil]|].
    apply NoDup_singleton. }
  destruct (unregister_removes "e1" m Hnd) as (_ & H2 & H3 & _).
  split; [exact H2|]. rewrite H3; [reflexivity|discriminate].
Defined.

Lemma apply_records_each_once_witness :
  let m := Scenarios.mgr_of true 10
             [("e1", Scenarios.exp_v2); ("e2", Scenarios.exp_global)] in
  ∃ la le, applied (apply (Some "a") "v1" m).1 = la
           ∧ eligible (apply (Some "a") "v1" m).1 = le
           ∧ NoDup (la ++ le).
Proof.
  intros m.
  assert (Hnd : NoDup (registry m).*1).
  { apply NoDup_cons. split; [by apply not_elem_of_cons; split; [|apply not_elem_of_nil]|].
    apply NoDup_singleton. }
  destruct (apply_records_each_once (Some "a") "v1" m Hnd) as (la & le & Ha & He & _ & Hn).
  exists la, le. auto.
Defined.

Lemma apply_skips_other_plugins_witness :
  let m := Scenarios.mgr_of true 10
             [("e1", Scenarios.exp_v2); ("e2", Scenarios.exp_global)] in
  apply (Some "b") "v1" m = (m, "v1").
Proof.
  intros m. apply apply_skips_other_plugins; [discriminate|].
  intros id exp Hin _.
  apply elem_of_cons in Hin as [Hin|Hin]; [by injection Hin as -> ->|].
  apply list_elem_of_singleton in Hin. by injection Hin as -> ->.
Defined.


End MoreExperimentInstances.


(** ** Further properties of the loader *)

Section MoreLoaderFacts.
Import Targeting Experiments Loader.
Implicit Types (st : loader) (p : plugin) (e : env).

Lemma getContext_from_spec e entries st :
  (getContext_from e entries st).1
  = (fun kc => (kc.1, dimension_value kc.2)) <$> entries
  ∧ store (getContext_from e entries st).2 = store st
  ∧ plugins (getContext_from e entries st).2 = plugins st
  ∧ metrics (getContext_from e entries st).2 = metrics st
  ∧ consentQueue (getContext_from e entries st).2 = consentQueue st
  ∧ effects (getContext_from e entries st).2 = effects st
  ∧ experiments (getContext_from e entries st).2 = experiments st
  ∧ dimensionConfig (getContext_from e entries st).2 = dimensionConfig st
  ∧ length (logs (getContext_from e entries st).2)
    = (length (logs st)
       + length (List.filter (fun kc => dimension_throws kc.2) entries))%nat
  ∧ ticks (getContext_from e entries st).2
    = (ticks st + length (List.filter (fun kc => dimension_throws kc.2) entries))%nat
  ∧ handles (getContext_from e entries st).2 = handles st
  ∧ eventPrefix (getContext_from e entries st).2 = eventPrefix st.
Proof.
  revert st. induction entries as [|[key call] rest IH]; intros st.
  - simpl. repeat split; lia.
  - unfold getContext_from. fold getContext_from. destruct call.
    + specialize (IH st). destruct (getContext_from e rest st) as [ctx st1].
      simpl in *. destruct IH as (-> & IH). done.
    + specialize (IH (log e ("Dimension " +:+ dquote +:+ key +:+ dquote +:+ " threw error") st)).
      destruct (getContext_from e rest _) as [ctx st1]. simpl in *.
      destruct IH as (-> & -> & -> & -> & -> & -> & -> & -> & -> & -> & -> & ->).
      rewrite length_app. simpl. repeat split; lia.
Qed.

(** X15.  [getContext] reads every dimension, in the order of the
    dimensions: a dimension that throws contributes [undefined] and one
    log entry and does not keep the others from being read.  Nothing but
    the logs (and the clock they read) changes. *)
Theorem getContext_reads_every_dimension e st :
  (getContext e st).1 = (fun kc => (kc.1, dimension_value kc.2)) <$> dimensions e
  ∧ length (logs (getContext e st).2) = (length (logs st) + throwing e)%nat
  ∧ store (getContext e st).2 = store st
  ∧ plugins (getContext e st).2 = plugins st
  ∧ metrics (getContext e st).2 = metrics st
  ∧ consentQueue (getContext e st).2 = consentQueue st
  ∧ effects (getContext e st).2 = effects st.
Proof.
  destruct (getContext_from_spec e (dimensions e) st)
    as (H1 & H2 & H3 & H4 & H5 & H6 & _ & _ & H9 & _ & _ & _).
  unfold getContext, throwing. done.
Qed.

Lemma concat_split_comma s : String.concat "," (split_comma s) = s.
Proof.
  induction s as [|c s IH]; [done|]. cbn [split_comma].
  destruct (Ascii.N_of_ascii c =? 44)%N eqn:E.
  - apply N.eqb_eq in E.
    assert (Hc : c = Ascii.ascii_of_N 44).
    { rewrite <- E. symmetry. apply Ascii.ascii_N_embedding. }
    destruct (split_comma s) as [|h t] eqn:Hs; [by destruct s; simpl in Hs; [|destruct (_ =? _)%N, (split_comma s)]|].
    cbn [String.concat]. simpl in IH. rewrite Hc.
    change (String.concat "," (h :: t)) with
      (match t with [] => h | _ => h ++ "," ++ String.concat "," t end)%string in IH.
    simpl. by rewrite <- IH.
  - destruct (split_comma s) as [|h t] eqn:Hs.
    + by destruct s; simpl in Hs; [|destruct (_ =? _)%N, (split_comma s)].
    + cbn [String.concat] in *. destruct t; simpl in *; by rewrite <- IH.
Qed.


Lemma prefix_comma c h :
  (Ascii.N_of_ascii c =? 44)%N = false → String.prefix "," (String c h) = false.
Proof.
  intros E. cbn [String.prefix].
  destruct (Ascii.ascii_dec (Ascii.Ascii false false true true false true false false) c)
    as [<-|Hne]; [discriminate E|done].
Qed.

Lemma split_comma_nonempty s : split_comma s ≠ [].
Proof.
  destruct s as [|c s]; [done|]. cbn [split_comma].
  destruct (Ascii.N_of_ascii c =? 44)%N; [done|]. by destruct (split_comma s).
Qed.

Lemma split_comma_no_comma s x :
  x ∈ split_comma s → str_includes x "," = false.
Proof.
  revert x. induction s as [|c s IH]; intros x; cbn [split_comma].
  - intros H. apply list_elem_of_singleton in H. by subst x.
  - destruct (Ascii.N_of_ascii c =? 44)%N eqn:E.
    + intros H. apply elem_of_cons in H as [->|H]; [done|by apply IH].
    + pose proof (split_comma_nonempty s) as Hne.
      destruct (split_comma s) as [|h t] eqn:Hs; [done|].
      intros H. apply elem_of_cons in H as [->|H].
      * cbn [str_includes]. rewrite (prefix_comma c h E). simpl.
        apply IH, list_elem_of_here.
      * apply IH. by apply list_elem_of_further.
Qed.

(** The override parameters are read as comma separated lists:
    splitting loses nothing (joining the segments with commas gives the
    parameter back), no segment holds a comma, and the names enabled or
    disabled are exactly the segments that are not empty; an absent or
    empty parameter names nothing. *)
Lemma override_list_segments (param : option string) :
  String.concat "," (split_comma (default "" param)) = default "" param
  ∧ (∀ x, x ∈ split_comma (default "" param) → str_includes x "," = false)
  ∧ (∀ x, x ∈ override_list param ↔
          x ≠ "" ∧ x ∈ split_comma (default "" param))
  ∧ override_list None = []
  ∧ override_list (Some "") = [].
Proof.
  split; [apply concat_split_comma|].
  split; [intros x; apply split_comma_no_comma|].
  split; [|done].
  intros x. unfold override_list. rewrite list_elem_of_filter. done.
Qed.

(** X16.  The decision of [checkUrlOverride]: a name that the enable list
    holds is enabled, also when the disable list holds it or "all"; a
    name that the enable list does not hold is disabled when the disable
    list holds it or "all"; otherwise there is no override. *)
Theorem url_override_decision e (n : string) :
  let enable := override_list (pluginEnable e) in
  let disable := override_list (pluginDisable e) in
  (n ∈ enable → checkUrlOverride e n = (true, true))
  ∧ (n ∉ enable → "all" ∈ disable ∨ n ∈ disable →
     checkUrlOverride e n = (true, false))
  ∧ (n ∉ enable → "all" ∉ disable → n ∉ disable →
     checkUrlOverride e n = (false, true)).
Proof.
  intros enable disable. unfold checkUrlOverride, getUrlOverrides.
  fold enable disable.
  destruct (arr_includes enable n) eqn:En, (arr_includes disable "all") eqn:Ea,
    (arr_includes disable n) eqn:Ed;
    rewrite ?arr_includes_true in *;
    repeat split; try done; intros H; try done;
    try (apply arr_includes_true in H; congruence);
    intros H'; try done;
    repeat match goal with
    | H : _ ∨ _ |- _ => destruct H as [H|H]
    | H : _ ∈ _ |- _ => apply arr_includes_true in H; try congruence
    | H : _ ∉ _ |- _ => exfalso; apply H; by apply arr_includes_true
    end.
Qed.

Lemma url_override_decision_witness :
  let e := Scenarios.page true (Some "a,,b") (Some "all,c") "sport" in
  checkUrlOverride e "a" = (true, true)
  ∧ checkUrlOverride e "c" = (true, false)
  ∧ checkUrlOverride (Scenarios.page true (Some "a") (Some "c") "sport") "d"
    = (false, true).
Proof.
  intros e.
  destruct (url_override_decision e "a") as (H1 & _ & _).
  destruct (url_override_decision e "c") as (_ & H2 & _).
  destruct (url_override_decision (Scenarios.page true (Some "a") (Some "c") "sport") "d")
    as (_ & _ & H3).
  split; [apply H1; by vm_compute; apply list_elem_of_here|].
  split.
  - apply H2.
    + vm_compute. intros H. repeat (apply elem_of_cons in H as [H|H]; [discriminate H|]).
      by apply elem_of_nil in H.
    + left. vm_compute. apply list_elem_of_here.
  - apply H3; vm_compute; intros H;
      repeat (apply elem_of_cons in H as [H|H]; [discriminate H|]);
      by apply elem_of_nil in H.
Defined.


(** *** The course of [load] *)

(** What looking up or creating the descriptor leaves alone. *)
Lemma descriptor_of_frame e config st :
  let d := descriptor_of e config st in
  effects d.2 = effects st ∧ consentQueue d.2 = consentQueue st
  ∧ metrics d.2 = metrics st ∧ eventPrefix d.2 = eventPrefix st
  ∧ experiments d.2 = experiments st ∧ promises d.2 = promises st
  ∧ dimensionConfig d.2 = dimensionConfig st ∧ handles d.2 = handles st.
Proof. unfold descriptor_of. by destruct (plugins st !! c_name config). Qed.

(** [load], once the descriptor is at hand. *)
Lemma load_unfold e config st p :
  let promise := promises st in
  let d := descriptor_of e config (set_promises (S promise) st) in
  store d.2 !! d.1 = Some p →
  load e config st
  = let ov := url_override e p
                (set_plugins (<[name p := d.1]> (plugins d.2)) d.2) in
    load_checks e d.1 promise ov.1 (write d.1 ov.1 ov.2).
Proof.
  intros promise d Hp. unfold load. fold promise.
  subst d. destruct (descriptor_of e config (set_promises (S promise) st)) as [l s].
  simpl in *. rewrite Hp. by destruct (url_override e p _).
Qed.

(** X17.  A plugin that the query string disables is never requested:
    [load] forces its [active] flag to false, publishes override.disabled,
    inactive and complete, and resolves once with status inactive; no
    hook is called, no alarm is armed, no script is attached and nothing
    is queued. *)
Theorem url_disable_forces_inactive e config st p :
  let promise := promises st in
  let loc := (descriptor_of e config (set_promises (S promise) st)).1 in
  let st0 := (descriptor_of e config (set_promises (S promise) st)).2 in
  store st0 !! loc = Some p →
  checkUrlOverride e (name p) = (true, false) →
  ∃ p', store (load e config st) !! loc = Some p'
        ∧ status p' = "inactive" ∧ active p' = false
        ∧ effects (load e config st)
          = effects st
            ++ [Publish (eventPrefix st +:+ "." +:+ name p +:+ "." +:+ "override.disabled")
                        (name p) "override.disabled" None;
                Publish (eventPrefix st +:+ "." +:+ name p +:+ "." +:+ "inactive")
                        (name p) "inactive" None;
                Publish (eventPrefix st +:+ "." +:+ name p +:+ "." +:+ "complete")
                        (name p) "complete" None;
                Resolve promise (Result "inactive" (name p) None None (performance p'))]
        ∧ consentQueue (load e config st) = consentQueue st
        ∧ metrics (load e config st) !! name p = Some (performance p').
Proof.
  intros promise loc st0 Hp Hov.
  assert (Hlt : (loc < length (store st0))%nat) by by eapply lookup_lt_Some.
  destruct (descriptor_of_frame e config (set_promises (S promise) st))
    as (Heff & Hq & Hm & Hpre & _).
  fold st0 in Heff, Hq, Hm, Hpre. simpl in Heff, Hq, Hm, Hpre.
  rewrite (load_unfold e config st p Hp). fold promise loc st0.
  unfold url_override. rewrite Hov. simpl.
  unfold load_checks. simpl. unfold handleInactive.
  rewrite write_lookup by done. simpl.
  rewrite list_lookup_insert_eq by (by rewrite length_insert).
  eexists. split; [reflexivity|]. simpl.
  rewrite Heff, Hq, Hpre, <- !app_assoc. simpl.
  repeat split. apply lookup_insert_eq.
Qed.

(** X18.  A descriptor that is not active stays out: whatever the page,
    the consent and the query string (an enable override included), a
    [load] of its name resolves as inactive and requests nothing.  The
    ignore path leaves the descriptor in that state, so that a plugin
    ignored once is not evaluated again by later loads. *)
Theorem inactive_descriptor_stays_out e config st loc p :
  plugins st !! c_name config = Some loc →
  store st !! loc = Some p →
  active p = false →
  (∃ p', store (load e config st) !! loc = Some p'
         ∧ status p' = "inactive" ∧ active p' = false
         ∧ last (effects (load e config st))
           = Some (Resolve (promises st)
                     (Result "inactive" (name p) None None (performance p')))
         ∧ List.filter is_request (effects (load e config st))
           = List.filter is_request (effects st))
  ∧ (∀ e0 reason promise,
       (active <$> store (handleIgnore e0 loc reason promise st) !! loc) = Some false).
Proof.
  intros Hn Hp Hact.
  assert (Hlt : (loc < length (store st))%nat) by by eapply lookup_lt_Some.
  split.
  - assert (Hd : descriptor_of e config (set_promises (S (promises st)) st)
                 = (loc, set_promises (S (promises st)) st)).
    { unfold descriptor_of. simpl. by rewrite Hn. }
    pose proof (load_unfold e config st p) as Hl. simpl in Hl.
    rewrite Hd in Hl. simpl in Hl. rewrite (Hl Hp). clear Hl.
    unfold url_override.
    destruct (checkUrlOverride e (name p)) as [[] []]; simpl;
      unfold load_checks; simpl; rewrite ?Hact; simpl;
      unfold handleInactive; rewrite write_lookup by done; simpl;
      rewrite list_lookup_insert_eq by (by rewrite length_insert);
      (eexists; split; [reflexivity|]); simpl;
      rewrite ?last_app; simpl;
      rewrite <- ?app_assoc, ?List.filter_app; simpl;
      rewrite ?app_nil_r; done.
  - intros e0 reason promise. unfold handleIgnore. rewrite Hp. simpl.
    by rewrite list_lookup_insert_eq.
Qed.

Lemma checkConsent_false e (required : list string) :
  checkConsent e required = false ↔
  required ≠ [] ∧ ("all" ∉ required) ∧ consentCheck e required = false.
Proof.
  unfold checkConsent. destruct required as [|r l].
  { split; [done|]. by intros [? _]. }
  destruct (arr_includes (r :: l) "all") eqn:E.
  - apply arr_includes_true in E. split; [done|]. by intros (_ & ? & _).
  - split; [|by intros (_ & _ & ?)]. intros H. split; [done|]. split; [|done].
    intros Hin. apply arr_includes_true in Hin. congruence.
Qed.

(** X19.  Consent gating: the consent oracle is asked only for a list of
    required states that is not empty and does not hold "all".  When it
    refuses an active plugin that no override touches, [load] suspends:
    the entry is appended to the consent queue, consent.pending is
    published, and that is all; the descriptor is as it was, nothing is
    resolved, requested or recorded in the metrics. *)
Theorem consent_denied_suspends e config st p :
  let promise := promises st in
  let loc := (descriptor_of e config (set_promises (S promise) st)).1 in
  let st0 := (descriptor_of e config (set_promises (S promise) st)).2 in
  store st0 !! loc = Some p →
  checkUrlOverride e (name p) = (false, true) →
  active p = true →
  checkConsent e (consentState p) = false →
  (consentState p ≠ [] ∧ ("all" ∉ consentState p)
   ∧ consentCheck e (consentState p) = false)
  ∧ consentQueue (load e config st) = consentQueue st ++ [(loc, promise)]
  ∧ effects (load e config st)
    = effects st
      ++ [Publish (eventPrefix st +:+ "." +:+ name p +:+ "." +:+ "consent.pending")
                  (name p) "consent.pending" None]
  ∧ store (load e config st) = store st0
  ∧ metrics (load e config st) = metrics st.
Proof.
  intros promise loc st0 Hp Hov Hact Hc.
  destruct (descriptor_of_frame e config (set_promises (S promise) st))
    as (Heff & Hq & Hm & Hpre & _).
  fold st0 in Heff, Hq, Hm, Hpre. simpl in Heff, Hq, Hm, Hpre.
  split; [by apply checkConsent_false|].
  rewrite (load_unfold e config st p Hp). fold promise loc st0.
  unfold url_override. rewrite Hov. simpl.
  unfold load_checks. rewrite Hact, Hc. simpl.
  rewrite Heff, Hq, Hpre, Hm. repeat split.
  by apply list_insert_id.
Qed.



(** *** What an operation on one descriptor leaves alone *)


Lemma handleIgnore_other e loc reason promise st l :
  l ≠ loc → store (handleIgnore e loc reason promise st) !! l = store st !! l.
Proof.
  intros Hne. unfold handleIgnore. destruct (store st !! loc); [|done].
  simpl. by rewrite list_lookup_insert_ne.
Qed.

Lemma executeLoad_other e loc promise st l :
  l ≠ loc → store (executeLoad e loc promise st) !! l = store st !! l.
Proof.
  intros Hne. unfold executeLoad. destruct (store st !! loc) as [p|]; [|done].
  simpl. destruct (truthy_str (url p)).
  - simpl. by rewrite list_lookup_insert_ne.
  - rewrite handleIgnore_other by done. simpl. by rewrite list_lookup_insert_ne.
Qed.






(** *** The consent queue *)

Lemma write_consent_of loc p' st l p :
  store st !! loc = Some p → consentState p' = consentState p →
  consent_of (write loc p' st) l = consent_of st l.
Proof.
  intros Hp Hc. unfold consent_of, write. simpl.
  assert (Hlt : (loc < length (store st))%nat) by by eapply lookup_lt_Some.
  destruct (decide (l = loc)) as [->|Hne].
  - rewrite list_lookup_insert_eq by done. rewrite Hp. simpl. by rewrite Hc.
  - by rewrite list_lookup_insert_ne.
Qed.

Lemma handleIgnore_consent e loc reason promise st l :
  consent_of (handleIgnore e loc reason promise st) l = consent_of st l
  ∧ consentQueue (handleIgnore e loc reason promise st) = consentQueue st.
Proof.
  unfold handleIgnore. destruct (store st !! loc) as [p|] eqn:Hp; [|done].
  assert (Hlt : (loc < length (store st))%nat) by by eapply lookup_lt_Some.
  split; [|done]. unfold consent_of. simpl.
  destruct (decide (l = loc)) as [->|Hne].
  - rewrite list_lookup_insert_eq by done. by rewrite Hp.
  - by rewrite list_lookup_insert_ne.
Qed.

Lemma executeLoad_consent e loc promise st l :
  consent_of (executeLoad e loc promise st) l = consent_of st l
  ∧ consentQueue (executeLoad e loc promise st) = consentQueue st.
Proof.
  unfold executeLoad. destruct (store st !! loc) as [p|] eqn:Hp; [|done].
  assert (Hlt : (loc < length (store st))%nat) by by eapply lookup_lt_Some.
  simpl. destruct (truthy_str (url p)).
  - split; [|done]. unfold consent_of. simpl.
    destruct (decide (l = loc)) as [->|Hne].
    + rewrite list_lookup_insert_eq by done. by rewrite Hp.
    + by rewrite list_lookup_insert_ne.
  - match goal with
    | |- context [handleIgnore e loc ?r promise ?s] =>
        destruct (handleIgnore_consent e loc r promise s l) as [H1 H2]
    end.
    rewrite H1, H2. split; [|done].
    unfold consent_of. simpl.
    destruct (decide (l = loc)) as [->|Hne].
    + rewrite list_lookup_insert_eq by done. by rewrite Hp.
    + by rewrite list_lookup_insert_ne.
Qed.

Lemma still_denied_consent_of e st st' entry :
  consent_of st' entry.1 = consent_of st entry.1 →
  still_denied e st' entry = still_denied e st entry.
Proof.
  unfold still_denied, consent_of. intros H.
  destruct (store st' !! entry.1), (store st !! entry.1); simpl in H; try done.
  by injection H as ->.
Qed.

(** One turn of the loop of [processConsentQueue]: the entry goes back to
    the queue exactly when its consent is still refused, and no consent
    state changes. *)
Lemma process_entry_queue e st entry :
  consentQueue (process_entry e st entry)
  = consentQueue st ++ (if still_denied e st entry then [entry] else [])
  ∧ ∀ l, consent_of (process_entry e st entry) l = consent_of st l.
Proof.
  destruct entry as [loc promise]. unfold process_entry, still_denied. simpl.
  destruct (store st !! loc) as [p|] eqn:Hp; [|by rewrite app_nil_r].
  destruct (checkConsent e (consentState p)); simpl; [|done].
  destruct (getContext_from_spec e (dimensions e) st)
    as (_ & Hs & _ & _ & Hq & _).
  unfold getContext. destruct (getContext_from e (dimensions e) st) as [ctx st1].
  simpl in Hs, Hq.
  assert (Hc : ∀ l, consent_of st1 l = consent_of st l)
    by (intros l; unfold consent_of; by rewrite Hs).
  rewrite app_nil_r.
  match goal with
  | |- context [if ?b then executeLoad _ _ _ _ else _] => destruct b
  end.
  - split; [by rewrite (proj2 (executeLoad_consent e loc promise st1 0%nat))|].
    intros l. by rewrite (proj1 (executeLoad_consent e loc promise st1 l)).
  - split; [by rewrite (proj2 (handleIgnore_consent e loc _ promise st1 0%nat))|].
    intros l. by rewrite (proj1 (handleIgnore_consent e loc _ promise st1 l)).
Qed.

Lemma process_loop_queue e queue st :
  consentQueue (fold_left (process_entry e) queue st)
  = consentQueue st ++ List.filter (still_denied e st) queue
  ∧ ∀ l, consent_of (fold_left (process_entry e) queue st) l = consent_of st l.
Proof.
  revert st. induction queue as [|entry queue IH]; intros st.
  - simpl. by rewrite app_nil_r.
  - cbn [fold_left List.filter].
    destruct (process_entry_queue e st entry) as [Hq Hc].
    destruct (IH (process_entry e st entry)) as [IHq IHc].
    split; [|intros l; by rewrite IHc].
    rewrite IHq, Hq, <- app_assoc. f_equal.
    rewrite (List.filter_ext (still_denied e (process_entry e st entry))
               (still_denied e st))
      by (intros x; apply still_denied_consent_of, Hc).
    by destruct (still_denied e st entry).
Qed.

Lemma process_loop_denied e queue st q :
  Forall (fun entry => still_denied e st entry = true) queue →
  fold_left (process_entry e) queue (set_consentQueue q st)
  = set_consentQueue (q ++ queue) st.
Proof.
  revert q. induction queue as [|[loc promise] queue IH]; intros q Hall.
  - by rewrite app_nil_r.
  - apply Forall_cons in Hall as [Hd Hall]. cbn [fold_left].
    unfold still_denied in Hd. simpl in Hd.
    destruct (store st !! loc) as [p|] eqn:Hp; [|done].
    apply negb_true_iff in Hd.
    rewrite (process_entry_denied e (set_consentQueue q st) loc promise p Hp Hd).
    simpl. change (set_consentQueue (q ++ [(loc, promise)]) (set_consentQueue q st))
      with (set_consentQueue (q ++ [(loc, promise)]) st).
    rewrite IH by done. by rewrite <- app_assoc.
Qed.

(** X22.  [processConsentQueue] keeps in the queue exactly the entries
    whose consent is still refused, in their order.  When every queued
    entry is still refused the loader is left as it was, and calling the
    function a second time on the same page changes nothing more. *)
Theorem processConsentQueue_keeps_denied e st :
  consentQueue (processConsentQueue e st)
  = List.filter (still_denied e st) (consentQueue st)
  ∧ (Forall (fun entry => still_denied e st entry = true) (consentQueue st) →
     processConsentQueue e st = st)
  ∧ processConsentQueue e (processConsentQueue e st) = processConsentQueue e st.
Proof.
  assert (Hid : ∀ s, Forall (fun entry => still_denied e s entry = true)
                       (consentQueue s) → processConsentQueue e s = s).
  { intros s Hall. unfold processConsentQueue.
    rewrite (process_loop_denied e (consentQueue s) s [] Hall). by destruct s. }
  destruct (process_loop_queue e (consentQueue st) (set_consentQueue [] st))
    as [Hq Hc].
  assert (Hq' : consentQueue (processConsentQueue e st)
                = List.filter (still_denied e st) (consentQueue st)).
  { unfold processConsentQueue. rewrite Hq. simpl.
    apply List.filter_ext. intros x. by apply still_denied_consent_of. }
  split; [exact Hq'|]. split; [apply Hid|].
  apply Hid. rewrite Hq'. apply Forall_forall. intros x Hx.
  apply list_elem_of_In, filter_In in Hx as [_ Hx].
  rewrite <- Hx. apply still_denied_consent_of.
  unfold processConsentQueue. by rewrite Hc.
Qed.

Lemma processConsentQueue_keeps_denied_witness :
  let denied := Scenarios.page false None None "sport" in
  let queued := load denied Scenarios.cfg_a Scenarios.fresh in
  consentQueue queued = [(0, 0)%nat]
  ∧ processConsentQueue denied queued = queued.
Proof.
  intros denied queued. split; [by vm_compute|].
  destruct (processConsentQueue_keeps_denied denied queued) as (_ & H2 & _).
  apply H2. apply Forall_forall. intros x Hx.
  assert (Hq : consentQueue queued = [(0, 0)%nat]) by by vm_compute.
  rewrite Hq in Hx. apply list_elem_of_singleton in Hx. subst x. by vm_compute.
Defined.


Lemma handleIgnore_settles e loc reason promise st p :
  store st !! loc = Some p → settled (handleIgnore e loc reason promise st) loc.
Proof.
  intros Hp. assert (Hlt : (loc < length (store st))%nat) by by eapply lookup_lt_Some.
  unfold settled, handleIgnore. rewrite Hp. simpl.
  rewrite list_lookup_insert_eq by done. eexists. split; [done|]. by right.
Qed.

Lemma executeLoad_settles e loc promise st p :
  store st !! loc = Some p → settled (executeLoad e loc promise st) loc.
Proof.
  intros Hp. assert (Hlt : (loc < length (store st))%nat) by by eapply lookup_lt_Some.
  unfold executeLoad. rewrite Hp. simpl. destruct (truthy_str (url p)).
  - unfold settled. simpl. rewrite list_lookup_insert_eq by done.
    eexists. split; [done|]. by left.
  - eapply handleIgnore_settles. by apply write_lookup.
Qed.

Lemma process_entry_other e st loc promise l :
  l ≠ loc → store (process_entry e st (loc, promise)) !! l = store st !! l.
Proof.
  intros Hne. unfold process_entry.
  destruct (store st !! loc) as [p|]; [|done].
  destruct (checkConsent e (consentState p)); [|done].
  destruct (getContext_from_spec e (dimensions e) st) as (_ & Hs & _).
  unfold getContext. destruct (getContext_from e (dimensions e) st) as [ctx st1].
  simpl in Hs.
  match goal with
  | |- context [if ?b then executeLoad _ _ _ _ else _] => destruct b
  end; rewrite ?executeLoad_other, ?handleIgnore_other by done; by rewrite Hs.
Qed.

Lemma process_entry_settles e st loc promise c :
  consent_of st loc = Some c → checkConsent e c = true →
  settled (process_entry e st (loc, promise)) loc.
Proof.
  unfold consent_of. intros Hc Hg.
  destruct (store st !! loc) as [p|] eqn:Hp; [|done]. injection Hc as <-.
  unfold process_entry. rewrite Hp, Hg.
  destruct (getContext_from_spec e (dimensions e) st) as (_ & Hs & _).
  unfold getContext. destruct (getContext_from e (dimensions e) st) as [ctx st1].
  simpl in Hs. rewrite <- Hs in Hp.
  match goal with
  | |- context [if ?b then executeLoad _ _ _ _ else _] => destruct b
  end; [by eapply executeLoad_settles|by eapply handleIgnore_settles].
Qed.

Lemma process_loop_settles e queue st :
  (∀ entry, entry ∈ queue →
            ∃ c, consent_of st entry.1 = Some c ∧ checkConsent e c = true) →
  ∀ l, settled st l ∨ l ∈ queue.*1 →
       settled (fold_left (process_entry e) queue st) l.
Proof.
  revert st. induction queue as [|[loc promise] queue IH]; intros st Hall l Hl.
  - destruct Hl as [Hl|Hl]; [done|]. by apply elem_of_nil in Hl.
  - cbn [fold_left].
    destruct (Hall (loc, promise) (list_elem_of_here _ _)) as (c & Hc & Hg).
    simpl in Hc.
    destruct (process_entry_queue e st (loc, promise)) as [_ Hframe].
    apply IH.
    + intros entry Hin. rewrite Hframe. apply Hall. by apply list_elem_of_further.
    + destruct (decide (l = loc)) as [->|Hne].
      * left. by eapply process_entry_settles.
      * destruct Hl as [(p & Hp & Hs)|Hl].
        -- left. exists p. by rewrite process_entry_other.
        -- right. rewrite fmap_cons in Hl. apply elem_of_cons in Hl as [Hl|Hl]; [done|done].
Qed.

(** X23.  When consent is given for every queued entry,
    [processConsentQueue] empties the queue and no plugin stays pending:
    each queued descriptor has been requested or ignored. *)
Theorem granted_entries_settle e st :
  (∀ entry, entry ∈ consentQueue st →
            ∃ p, store st !! entry.1 = Some p
                 ∧ checkConsent e (consentState p) = true) →
  consentQueue (processConsentQueue e st) = []
  ∧ ∀ entry, entry ∈ consentQueue st →
             settled (processConsentQueue e st) entry.1.
Proof.
  intros Hall.
  assert (Hgr : ∀ entry, entry ∈ consentQueue st →
                  ∃ c, consent_of (set_consentQueue [] st) entry.1 = Some c
                       ∧ checkConsent e c = true).
  { intros entry Hin. destruct (Hall entry Hin) as (p & Hp & Hg).
    exists (consentState p). unfold consent_of. simpl. by rewrite Hp. }
  split.
  - destruct (process_loop_queue e (consentQueue st) (set_consentQueue [] st))
      as [Hq _].
    unfold processConsentQueue. rewrite Hq. simpl.
    rewrite (List.filter_ext_in _ (fun _ => false)); [apply List.filter_false|].
    intros entry Hin. apply list_elem_of_In in Hin.
    destruct (Hall entry Hin) as (p & Hp & Hg).
    unfold still_denied. simpl. by rewrite Hp, Hg.
  - intros entry Hin. unfold processConsentQueue.
    apply process_loop_settles; [exact Hgr|]. right.
    by apply list_elem_of_fmap_2.
Qed.

(** X24.  The callback that resolves a requested load records its
    outcome: the descriptor and its performance record get the status of
    the callback (timeout, loaded, error), the matching timestamp is the
    clock at the call and the latency is the next reading of the clock
    less the init timestamp; the metrics get a copy of the record under
    the name of the plugin, and the promise is resolved last, with that
    status and that record. *)
Theorem resolution_records_outcome e loc promise cb st p :
  store st !! loc = Some p →
  status p = "requested" →
  ∃ p' r,
    store (fire e loc promise cb st) !! loc = Some p'
    ∧ status p' = outcome cb
    ∧ p_status (performance p') = outcome cb
    ∧ stamp cb (performance p') = clock e (ticks st)
    ∧ p_latency (performance p')
      = (clock e (S (ticks st)) - p_init (performance p))%Z
    ∧ metrics (fire e loc promise cb st) !! name p = Some (performance p')
    ∧ last (effects (fire e loc promise cb st)) = Some (Resolve promise r)
    ∧ res_status r = outcome cb
    ∧ res_name r = name p
    ∧ res_performance r = performance p'.
Proof.
  intros Hp Hs.
  assert (Hlt : (loc < length (store st))%nat) by by eapply lookup_lt_Some.
  destruct cb; unfold fire, timeout_callback, onload_callback, onerror_callback;
    rewrite Hp, Hs; simpl; rewrite list_lookup_insert_eq by done;
    eexists; eexists; (split; [reflexivity|]); simpl;
    rewrite lookup_insert_eq, last_app; simpl; repeat split.
Qed.

(** X25.  The two short-circuit exits of a load: [handleInactive] and
    [handleIgnore] set the status of the descriptor and of its performance
    record, compute the latency from the init timestamp, copy the record
    to the metrics, publish their event and then complete, and resolve the
    promise once, last.  [handleIgnore] also switches the descriptor off
    and hands its reason to the ignore hook, to the event and to the
    result. *)
Theorem short_circuit_exits e loc promise reason st p :
  store st !! loc = Some p →
  (∃ p', store (handleInactive e loc promise st) !! loc = Some p'
         ∧ status p' = "inactive" ∧ p_status (performance p') = "inactive"
         ∧ active p' = active p
         ∧ p_latency (performance p')
           = (clock e (ticks st) - p_init (performance p))%Z
         ∧ metrics (handleInactive e loc promise st) !! name p
           = Some (performance p')
         ∧ effects (handleInactive e loc promise st)
           = effects st
             ++ [Publish (eventPrefix st +:+ "." +:+ name p +:+ "." +:+ "inactive")
                         (name p) "inactive" None;
                 Publish (eventPrefix st +:+ "." +:+ name p +:+ "." +:+ "complete")
                         (name p) "complete" None;
                 Resolve promise
                   (Result "inactive" (name p) None None (performance p'))])
  ∧ (∃ p', store (handleIgnore e loc reason promise st) !! loc = Some p'
           ∧ status p' = "ignore" ∧ p_status (performance p') = "ignore"
           ∧ active p' = false
           ∧ p_latency (performance p')
             = (clock e (ticks st) - p_init (performance p))%Z
           ∧ metrics (handleIgnore e loc reason promise st) !! name p
             = Some (performance p')
           ∧ effects (handleIgnore e loc reason promise st)
             = effects st
               ++ [CallHook loc (IgnoreFn reason);
                   Publish (eventPrefix st +:+ "." +:+ name p +:+ "." +:+ "ignore")
                           (name p) "ignore" (Some reason);
                   Publish (eventPrefix st +:+ "." +:+ name p +:+ "." +:+ "complete")
                           (name p) "complete" None;
                   Resolve promise
                     (Result "ignore" (name p) (Some reason) None (performance p'))]).
Proof.
  intros Hp.
  assert (Hlt : (loc < length (store st))%nat) by by eapply lookup_lt_Some.
  split; unfold handleInactive, handleIgnore; rewrite Hp; simpl;
    rewrite list_lookup_insert_eq by done;
    (eexists; split; [reflexivity|]); simpl;
    rewrite lookup_insert_eq, <- !app_assoc; simpl; repeat split.
Qed.

(** X26.  The trace of a load that goes through: [executeLoad] arms the
    alarm, calls the preload hook and attaches the script, in this order;
    when the script then loads, the alarm that is cleared is the one that
    was armed, the load hook is called, load and complete are published
    and the promise is resolved; when the alarm fires first nothing is
    cleared and the timeout hook, the timeout and complete events and the
    resolution follow. *)
Theorem requested_load_trace e e' loc promise st p :
  store st !! loc = Some p →
  truthy_str (url p) = true →
  let st1 := executeLoad e loc promise st in
  let topic := fun event => eventPrefix st +:+ "." +:+ name p +:+ "." +:+ event in
  effects st1
  = effects st
    ++ [SetTimeout (handles st) loc promise (timeout p);
        CallHook loc PreloadFn;
        AppendScript (S (handles st)) loc promise (default "" (url p)) (location p)]
  ∧ (∃ r, effects (onload_callback e' loc promise st1)
          = effects st1
            ++ [ClearTimeout (Some (handles st)); CallHook loc OnloadFn;
                Publish (topic "load") (name p) "load" None;
                Publish (topic "complete") (name p) "complete" None;
                Resolve promise r]
          ∧ res_status r = "loaded"
          ∧ p_preload (res_performance r) = clock e (ticks st)
          ∧ p_requested (res_performance r) = clock e (S (ticks st))
          ∧ p_received (res_performance r) = clock e' (S (S (ticks st))))
  ∧ (∃ r, effects (timeout_callback e' loc promise st1)
          = effects st1
            ++ [CallHook loc TimeoutFn;
                Publish (topic "timeout") (name p) "timeout" None;
                Publish (topic "complete") (name p) "complete" None;
                Resolve promise r]
          ∧ res_status r = "timeout"
          ∧ p_timeout (res_performance r) = clock e' (S (S (ticks st)))).
Proof.
  intros Hp Hurl st1 topic.
  assert (Hlt : (loc < length (store st))%nat) by by eapply lookup_lt_Some.
  subst st1 topic. unfold executeLoad. rewrite Hp. simpl. rewrite Hurl. simpl.
  split; [by rewrite <- !app_assoc|].
  split; unfold onload_callback, timeout_callback; simpl;
    rewrite list_lookup_insert_eq by done; simpl;
    eexists; (split; [by rewrite <- !app_assoc|]); simpl; repeat split.
Qed.


(** *** Instances on the scenarios *)

Lemma url_disable_forces_inactive_witness :
  let pg := Scenarios.page true None (Some "a") "sport" in
  (status <$> store (load pg Scenarios.cfg_a Scenarios.fresh) !! 0%nat)
  = Some "inactive"
  ∧ consentQueue (load pg Scenarios.cfg_a Scenarios.fresh) = [].
Proof.
  intros pg.
  edestruct (url_disable_forces_inactive pg Scenarios.cfg_a Scenarios.fresh)
    as (p' & Hp' & Hs & _ & _ & Hq & _).
  - vm_compute. reflexivity.
  - by vm_compute.
  - split; [|exact Hq].
    change (store (load pg Scenarios.cfg_a Scenarios.fresh) !! 0%nat)
      with (store (load pg Scenarios.cfg_a Scenarios.fresh)
              !! (descriptor_of pg Scenarios.cfg_a
                    (set_promises (S (promises Scenarios.fresh)) Scenarios.fresh)).1).
    rewrite Hp'. simpl. by rewrite Hs.
Defined.

Lemma inactive_descriptor_stays_out_witness :
  let off := load (Scenarios.page true None None "sport") Scenarios.cfg_off
                  Scenarios.fresh in
  let again := load (Scenarios.page true (Some "a") None "sport") Scenarios.cfg_a off in
  (status <$> store again !! 0%nat) = Some "inactive"
  ∧ List.filter is_request (effects again) = [].
Proof.
  intros off again.
  edestruct (inactive_descriptor_stays_out
               (Scenarios.page true (Some "a") None "sport") Scenarios.cfg_a off 0%nat)
    as [(p' & Hp' & Hs & _ & _ & Hr) _].
  - by vm_compute.
  - vm_compute. reflexivity.
  - by vm_compute.
  - fold again in Hp', Hr. rewrite Hp'. simpl. rewrite Hs. split; [done|].
    rewrite Hr. by vm_compute.
Defined.

Lemma consent_denied_suspends_witness :
  let pg := Scenarios.page false None None "sport" in
  consentQueue (load pg Scenarios.cfg_a Scenarios.fresh) = [(0, 0)%nat]
  ∧ metrics (load pg Scenarios.cfg_a Scenarios.fresh) = ∅.
Proof.
  intros pg.
  edestruct (consent_denied_suspends pg Scenarios.cfg_a Scenarios.fresh)
    as (_ & Hq & _ & _ & Hm).
  - vm_compute. reflexivity.
  - by vm_compute.
  - by vm_compute.
  - by vm_compute.
  - split; [exact Hq|exact Hm].
Defined.


Lemma granted_entries_settle_witness :
  let denied := Scenarios.page false None None "sport" in
  let granted := Scenarios.page true None None "sport" in
  let queued := load denied Scenarios.cfg_a Scenarios.fresh in
  consentQueue queued = [(0, 0)%nat]
  ∧ consentQueue (processConsentQueue granted queued) = [].
Proof.
  intros denied granted queued. split; [by vm_compute|].
  apply (granted_entries_settle granted queued).
  intros entry Hin.
  assert (Hq : consentQueue queued = [(0, 0)%nat]) by by vm_compute.
  rewrite Hq in Hin. apply list_elem_of_singleton in Hin. subst entry.
  eexists. split; [vm_compute; reflexivity|by vm_compute].
Defined.

Lemma resolution_records_outcome_witness :
  let pg := Scenarios.page true None None "sport" in
  let st := load pg Scenarios.cfg_a Scenarios.fresh in
  (status <$> store (fire pg 0 0 ScriptLoaded st) !! 0%nat) = Some "loaded".
Proof.
  intros pg st.
  edestruct (resolution_records_outcome pg 0%nat 0%nat ScriptLoaded st)
    as (p' & r & Hp' & Hs & _).
  - vm_compute. reflexivity.
  - by vm_compute.
  - rewrite Hp'. simpl. by rewrite Hs.
Defined.

Lemma short_circuit_exits_witness :
  let pg := Scenarios.page false None None "sport" in
  let st := load pg Scenarios.cfg_a Scenarios.fresh in
  (status <$> store (handleIgnore pg 0 "consent" 0 st) !! 0%nat) = Some "ignore"
  ∧ (status <$> store (handleInactive pg 0 0 st) !! 0%nat) = Some "inactive".
Proof.
  intros pg st.
  edestruct (short_circuit_exits pg 0%nat 0%nat "consent" st)
    as [(p1 & Hp1 & Hs1 & _) (p2 & Hp2 & Hs2 & _)].
  - vm_compute. reflexivity.
  - rewrite Hp1, Hp2. simpl. by rewrite Hs1, Hs2.
Defined.

Lemma requested_load_trace_witness :
  let denied := Scenarios.page false None None "sport" in
  let granted := Scenarios.page true None None "sport" in
  let st := load denied Scenarios.cfg_a Scenarios.fresh in
  List.filter is_request (effects (executeLoad granted 0 0 st))
  = [SetTimeout 0 0 0 3000; AppendScript 1 0 0 "https://x/v1.js" "body"].
Proof.
  intros denied granted st.
  edestruct (requested_load_trace granted granted 0%nat 0%nat st) as (He & _).
  - vm_compute. reflexivity.
  - by vm_compute.
  - rewrite He. by vm_compute.
Defined.

End MoreLoaderFacts.


(** ** Properties of the publish/subscribe bus *)

Section PubSubFacts.
Import PubSub.
Context {Data : Type}.
Implicit Types (s : pubsub Data) (x : subscription).

Lemma deliver_spec l t (data : Data) s :
  topics (deliver l t data s) = topics s
  ∧ publishedTopics (deliver l t data s) = publishedTopics s
  ∧ uid (deliver l t data s) = uid s
  ∧ calls (deliver l t data s)
    = calls s ++ ((fun x => (func x, Some data)) <$> List.filter (on_topic t) l).
Proof.
  revert s. induction l as [|x l IH]; intros s.
  - unfold deliver. simpl. by rewrite app_nil_r.
  - unfold deliver. fold (@deliver Data). cbn [List.filter]. unfold on_topic at 1.
    destruct (String.eqb (topic x) t).
    + destruct (IH (call (func x) (Some data) s)) as (-> & -> & -> & ->).
      simpl. by rewrite <- app_assoc.
    + apply IH.
Qed.

(** [publish] in terms of the subscriptions of the topic. *)
Lemma publish_spec t (data : Data) s :
  topics (publish t data s) = topics s
  ∧ publishedTopics (publish t data s) = publishedTopics s ++ [t]
  ∧ uid (publish t data s) = uid s
  ∧ calls (publish t data s)
    = calls s ++ ((fun x => (func x, Some data)) <$> List.filter (on_topic t) (topics s)).
Proof.
  unfold publish.
  destruct (deliver_spec (topics s) t data
              (MkPubSub (topics s) (publishedTopics s ++ [t]) (uid s) (calls s)))
    as (Ht & Hp & Hu & Hc).
  done.
Qed.

(** X27.  [publish] records the topic and calls the subscribers of the
    topic, and only them, once each, in the order of their subscriptions,
    with the data; the subscriptions and the token counter are untouched.
    [hasPublished] is true of a topic from its first publication on, and
    of no topic on a new bus. *)
Theorem publish_delivers_to_topic t (data : Data) s :
  calls (publish t data s)
  = calls s ++ ((fun x => (func x, Some data)) <$> List.filter (on_topic t) (topics s))
  ∧ topics (publish t data s) = topics s
  ∧ uid (publish t data s) = uid s
  ∧ hasPublished t (publish t data s) = true
  ∧ (∀ t', hasPublished t' s = true → hasPublished t' (publish t data s) = true)
  ∧ (∀ t', t' ≠ t → hasPublished t' (publish t data s) = hasPublished t' s)
  ∧ (∀ t', hasPublished t' (create (Data := Data)) = false).
Proof.
  destruct (publish_spec t data s) as (Ht & Hp & Hu & Hc).
  split; [done|]. split; [done|]. split; [done|].
  unfold hasPublished. rewrite Hp. unfold arr_includes.
  split; [|split; [|split]].
  - rewrite existsb_app. simpl. rewrite bool_decide_eq_true_2 by done.
    by rewrite orb_true_r.
  - intros t' H. rewrite existsb_app, H. done.
  - intros t' Hne. rewrite existsb_app. simpl.
    rewrite bool_decide_eq_false_2 by congruence. by rewrite !orb_false_r.
  - done.
Qed.

Lemma run_if_published_spec published t f s :
  run_if_published published t f s
  = if arr_includes published t then call f None s else s.
Proof.
  induction published as [|t' rest IH]; [done|].
  cbn [run_if_published]. unfold arr_includes in *. cbn [existsb].
  destruct (String.eqb t' t) eqn:E.
  - apply String.eqb_eq in E. subst t'. by rewrite bool_decide_eq_true_2.
  - apply String.eqb_neq in E. by rewrite bool_decide_eq_false_2.
Qed.

(** X28.  [subscribe] with [runIfAlreadyPublished] calls the function at
    once, without data, when the topic has been published, and then only
    once however often it was published; otherwise it calls nothing.  In
    both cases the subscription goes to the end of the list, so that later
    publications of the topic reach the function, and the published
    history is untouched.  An argument that is not a function is refused
    without any change. *)
Theorem subscribe_runs_if_published t f (run : bool) s :
  calls (subscribe t (Some f) run s).1
  = calls s ++ (if run && hasPublished t s then [(f, None)] else [])
  ∧ (∃ tok, (subscribe t (Some f) run s).2 = Some tok
            ∧ topics (subscribe t (Some f) run s).1
              = topics s ++ [Subscription tok t f])
  ∧ publishedTopics (subscribe t (Some f) run s).1 = publishedTopics s
  ∧ (∀ data : Data,
       In (f, Some data)
          (calls (publish t data (subscribe t (Some f) run s).1)))
  ∧ subscribe t None run s = (s, None).
Proof.
  unfold subscribe, hasPublished. rewrite run_if_published_spec.
  destruct run; simpl; destruct (arr_includes (publishedTopics s) t); simpl;
    rewrite ?app_nil_r;
    (split; [done|]); (split; [by eexists|]); (split; [done|]);
    (split; [|done]); intros data;
    match goal with
    | |- In _ (calls (publish _ _ ?s')) =>
        destruct (publish_spec t data s') as (_ & _ & _ & ->)
    end; simpl; rewrite List.filter_app; simpl; unfold on_topic at 2; simpl;
    rewrite String.eqb_refl, fmap_app; simpl;
    apply in_or_app; right; apply in_or_app; right; by left.
Qed.


Lemma splice_first_fresh l t tok f :
  tok ∉ token <$> l →
  splice_first (l ++ [Subscription tok t f]) t tok = Some l.
Proof.
  induction l as [|x l IH]; intros Hnot; cbn [app splice_first].
  - simpl. by rewrite !String.eqb_refl.
  - rewrite fmap_cons in Hnot. apply not_elem_of_cons in Hnot as [Hx Hl].
    destruct (String.eqb (token x) tok) eqn:E.
    + apply String.eqb_eq in E. congruence.
    + simpl. by rewrite IH.
Qed.

Lemma splice_first_sub l t tok l' :
  splice_first l t tok = Some l' → ∀ x, x ∈ l' → x ∈ l.
Proof.
  revert l'. induction l as [|y l IH]; intros l'; cbn [splice_first]; [done|].
  destruct (String.eqb (token y) tok && String.eqb (topic y) t).
  - intros [= <-] x Hx. by apply list_elem_of_further.
  - destruct (splice_first l t tok) as [l0|]; [|done]. simpl.
    intros [= <-] x Hx. apply elem_of_cons in Hx as [->|Hx].
    + apply list_elem_of_here.
    + apply list_elem_of_further. by apply (IH l0).
Qed.

Lemma splice_first_none l t tok :
  (∀ x, x ∈ l → ¬ (token x = tok ∧ topic x = t)) → splice_first l t tok = None.
Proof.
  induction l as [|y l IH]; intros Hno; cbn [splice_first]; [done|].
  destruct (String.eqb (token y) tok && String.eqb (topic y) t) eqn:E.
  - apply andb_true_iff in E as [E1 E2].
    apply String.eqb_eq in E1, E2. exfalso.
    by apply (Hno y (list_elem_of_here _ _)).
  - rewrite IH; [done|]. intros x Hx. apply Hno. by apply list_elem_of_further.
Qed.

(** X29.  The tokens that [subscribe] hands out are fresh: on a bus whose
    tokens come from its counter (as they do from a new bus on, through
    every operation), the token of a new subscription is carried by no
    other subscription, so that [unsubscribe] with the topic and that
    token removes the new subscription and restores the list.
    [unsubscribe] with a token or topic that no subscription has answers
    false and changes nothing. *)
Theorem subscribe_unsubscribe_round_trip t f (run : bool) s :
  tokens_ok (create (Data := Data))
  ∧ (tokens_ok s →
     (∃ tok, (subscribe t (Some f) run s).2 = Some tok
             ∧ (tok ∉ token <$> topics s)
             ∧ (unsubscribe t tok (subscribe t (Some f) run s).1).2 = true
             ∧ topics (unsubscribe t tok (subscribe t (Some f) run s).1).1
               = topics s)
     ∧ tokens_ok (subscribe t (Some f) run s).1
     ∧ (∀ data, tokens_ok (publish t data s))
     ∧ (∀ t' tok', tokens_ok (unsubscribe t' tok' s).1)
     ∧ tokens_ok (clear s))
  ∧ (∀ t' tok',
       (∀ x, x ∈ topics s → ¬ (token x = tok' ∧ topic x = t')) →
       unsubscribe t' tok' s = (s, false)).
Proof.
  split; [|split].
  - split; [done|]. intros x Hx. by apply elem_of_nil in Hx.
  - intros [Huid Htok].
    assert (Hfresh : pretty (uid s + 1)%Z ∉ token <$> topics s).
    { intros Hin. apply list_elem_of_fmap in Hin as (x & Hx & Hin).
      destruct (Htok x Hin) as (n & Hn & Hxn). rewrite Hxn in Hx.
      apply (inj pretty) in Hx. lia. }
    assert (Hsub : topics (subscribe t (Some f) run s).1
                   = topics s ++ [Subscription (pretty (uid s + 1)%Z) t f]
                   ∧ uid (subscribe t (Some f) run s).1 = (uid s + 1)%Z
                   ∧ (subscribe t (Some f) run s).2 = Some (pretty (uid s + 1)%Z)).
    { unfold subscribe. rewrite run_if_published_spec.
      by destruct run, (arr_includes (publishedTopics s) t). }
    destruct Hsub as (Hts & Hu & Hr).
    split; [|split; [|split; [|split]]].
    + exists (pretty (uid s + 1)%Z). split; [done|]. split; [done|].
      unfold unsubscribe. rewrite Hts, splice_first_fresh by done. done.
    + split; [rewrite Hu; lia|]. intros x Hx. rewrite Hts in Hx. rewrite Hu.
      apply elem_of_app in Hx as [Hx|Hx].
      * destruct (Htok x Hx) as (n & Hn & Hxn). exists n. split; [lia|done].
      * apply list_elem_of_singleton in Hx. subst x. exists (uid s + 1)%Z.
        split; [lia|done].
    + intros data. destruct (publish_spec t data s) as (Ht & _ & Hu' & _).
      unfold tokens_ok. by rewrite Ht, Hu'.
    + intros t' tok'. unfold unsubscribe.
      destruct (splice_first (topics s) t' tok') as [l|] eqn:E; [|done].
      split; [done|]. simpl. intros x Hx. apply Htok.
      by apply (splice_first_sub _ _ _ _ E).
    + split; [done|]. intros x Hx. by apply elem_of_nil in Hx.
  - intros t' tok' Hno. unfold unsubscribe. by rewrite splice_first_none.
Qed.

End PubSubFacts.

Section PubSubInstances.
Import PubSub.

Lemma subscribe_unsubscribe_round_trip_witness :
  let s : pubsub Z := (subscribe "cmp.ready" (Some 7%nat) false create).1 in
  (subscribe "cmp.ready" (Some 8%nat) true s).2 = Some "1"
  ∧ topics (unsubscribe "cmp.ready" "1" (subscribe "cmp.ready" (Some 8%nat) true s).1).1
    = topics s
  ∧ unsubscribe "other" "0" s = (s, false).
Proof.
  intros s.
  destruct (subscribe_unsubscribe_round_trip "cmp.ready" 7%nat false (create (Data := Z)))
    as (Hc & Hs0 & _).
  destruct (Hs0 Hc) as (_ & Hok & _).
  destruct (subscribe_unsubscribe_round_trip "cmp.ready" 8%nat true s) as (_ & Hs & Hno).
  destruct (Hs Hok) as ((tok & Ht & _ & _ & Hu) & _).
  split; [reflexivity|]. split.
  - assert (tok = "1") by (vm_compute in Ht; congruence). subst tok. exact Hu.
  - apply Hno. intros x Hx. apply list_elem_of_singleton in Hx. subst x.
    intros [_ H]. discriminate H.
Defined.

End PubSubInstances.

(** ** Properties of the choice of bundles *)

Section MatrixFacts.
Import Matrix.









End MatrixFacts.
